(** * dataflow-sa: static def/use chain analysis

    A shallow embedding of [src/tools/dataflow-sa.cpp] and the properties of
    its definition collector, its reachability loop, its chain store and its
    JSON rendering.

    Pointers are modelled by their identity (a [positive]); a null pointer is
    [None].  What LLVM and SVF hand to the tool (the parsed module, the
    call-site set, the value-flow graph, the recovered variables) is input
    data.  Three things the file takes from headers that are not part of the
    translation unit are parameters of the development: whether [NDEBUG] is
    defined (it decides what [assert] and [llvm_unreachable] expand to), the
    two metadata kind names of [fuzzalloc/Metadata.h], and LLVM's value
    printer. *)

From Stdlib Require Import ZArith String List Lia.
From stdpp Require Import base gmap sets list strings relations pretty.

Open Scope string_scope.
Open Scope list_scope.

Set Default Proof Using "Type".
#[local] Set Warnings "-clear-no-such-hyp".

(** ** LLVM values and debug metadata *)

Abbreviation ValuePtr := positive.
Abbreviation NodePtr := positive.

(** [DIVariable]: what [getName], [getFile()->getName()] and [getLine] return,
    and, for a [DILocalVariable], the name of [getDISubprogram(getScope())]. *)
Inductive DIVariableKind :=
  | DILocalVariable (subprogram : string)
  | DIGlobalVariable.

Record DIVariable := {
  DIVariable_getName : string;
  DIVariable_getFile : string;
  DIVariable_getLine : nat;
  DIVariable_kind : DIVariableKind
}.

(** [DILocation]: file name, name of the enclosing subprogram, line. *)
Record DILocation := {
  DILocation_getFile : string;
  DILocation_getSubprogram : string;
  DILocation_getLine : nat
}.

Inductive Opcode :=
  | LoadInst (getPointerOperand : ValuePtr)
  | StoreInst (getPointerOperand : ValuePtr)
  | CallInst
  | OtherInst.

(** An instruction: its opcode, the kinds of the metadata attached to it
    (other than the debug location), its debug location and the name of the
    basic block it sits in ([getParent()->getName()]). *)
Record Instruction := {
  getOpcode : Opcode;
  metadata : list string;
  getDebugLoc : option DILocation;
  getParentName : string
}.

(** A value: its address, and the instruction it is when
    [dyn_cast<Instruction>] succeeds. *)
Record Value := {
  addr : ValuePtr;
  asInstruction : option Instruction
}.

Record Function := { Function_getName : string }.

(** SVF's external-API classification of callees. *)
Record ExtAPI := {
  is_alloc : Function → bool;
  is_realloc : Function → bool
}.

(** ** The value-flow graph *)

(** A node of the graph: [getValue()] (may be null) and the destination of
    each outgoing edge, in the order [getOutEdges()] iterates them. *)
Record VFGNode := {
  getValue : option Value;
  getOutEdges : list NodePtr
}.

Abbreviation SVFG := (gmap NodePtr VFGNode).

Definition node_value (g : SVFG) (n : NodePtr) : option Value :=
  match g !! n with Some nd => getValue nd | None => None end.

Definition out_edges (g : SVFG) (n : NodePtr) : list NodePtr :=
  match g !! n with Some nd => getOutEdges nd | None => [] end.

(** Every node the graph mentions: the nodes it stores and the destinations
    of their edges. *)
Definition graph_nodes (g : SVFG) : gset NodePtr :=
  dom g ∪ ⋃ ((λ kv, list_to_set (getOutEdges kv.2)) <$> map_to_list g).

(** A call site as the tool sees it: the call instruction [getCallSite()],
    [SVFUtil::getCallee] (null for an unresolved callee) and the node
    [VFG->getDefSVFGNode(IR->getGNode(IR->getValueNode(CS)))].  The record
    leaves the node free; that SVF answers with the node defining the call
    itself is the predicate [call_site_defined] below, assumed where a
    property needs it. *)
Record CallSite := {
  getCallSite : Value;
  getCallee : option Function;
  getDefSVFGNode : NodePtr
}.

(** ** Ways a run stops, and the two monads of the embedding *)

Inductive Stop :=
  | Exit (code : Z)
  | Abort (msg : string)
  | Undefined.

Inductive Res (A : Type) :=
  | Ok (a : A)
  | Halt (s : Stop).
Arguments Ok {A} a.
Arguments Halt {A} s.

#[global] Instance Res_ret : MRet Res := λ A a, Ok a.
#[global] Instance Res_bind : MBind Res := λ A B f m,
  match m with Ok a => f a | Halt s => Halt s end.

#[warnings="-register-all"] Inductive json :=
  | JNull
  | JString (s : string)
  | JNumber (n : nat)
  | JArray (l : list json).

(** What the process writes: the streams [outs()] and [errs()], the files,
    and [dash], the stream a [raw_fd_ostream] opened on the path ["-"] is:
    the standard output again, through a stream object of its own, so that
    how its text interleaves with that of [outs()] is left open. *)
Record World := {
  outs : list string;
  errs : list string;
  files : gmap string json;
  dash : list json
}.

Definition M (A : Type) : Type := World → World * Res A.

#[global] Instance M_ret : MRet M := λ A a w, (w, Ok a).
#[global] Instance M_bind : MBind M := λ A B f m w,
  match m w with
  | (w', Ok a) => f a w'
  | (w', Halt s) => (w', Halt s)
  end.

Definition lift {A} (r : Res A) : M A := λ w, (w, r).

Definition nl : string := String (Ascii.ascii_of_nat 10) "".

Definition status_stream (msg : string) : M unit := λ w,
  ({| outs := outs w ++ ["[*] " +:+ msg]; errs := errs w; files := files w;
      dash := dash w |}, Ok ()).
Definition success_stream (msg : string) : M unit := λ w,
  ({| outs := outs w ++ ["[+] " +:+ msg]; errs := errs w; files := files w;
      dash := dash w |}, Ok ()).
Definition error_stream (msg : string) : M unit := λ w,
  ({| outs := outs w; errs := errs w ++ ["[!] " +:+ msg]; files := files w;
      dash := dash w |}, Ok ()).
Definition exit {A} (code : Z) : M A := lift (Halt (Exit code)).
Definition write_file (path : string) (j : json) : M unit := λ w,
  ({| outs := outs w; errs := errs w; files := <[path := j]> (files w);
      dash := dash w |}, Ok ()).
Definition write_dash (j : json) : M unit := λ w,
  ({| outs := outs w; errs := errs w; files := files w;
      dash := dash w ++ [j] |}, Ok ()).

(** What has gone through a [raw_fd_ostream] constructed on [path] once it
    is flushed and closed: the path ["-"] names the standard output, every
    other path a file, created or truncated when the stream is opened. *)
Definition raw_fd_ostream (path : string) (j : json) : M unit :=
  if (path =? "-")%string then write_dash j else write_file path j.

(** ** SVF's FIFO work list

    [FIFOWorkList<Data>] keeps a deque together with a set of the queued
    items: [push] appends unless the item is queued already, [pop] takes the
    front. *)
Module FIFOWorkList.
Definition t := list NodePtr.
Definition empty (w : t) : bool := match w with [] => true | _ => false end.
Definition find (x : NodePtr) (w : t) : bool := bool_decide (x ∈ w).
Definition push (x : NodePtr) (w : t) : t := if find x w then w else w ++ [x].
Definition pop (w : t) : option (NodePtr * t) :=
  match w with [] => None | x :: w' => Some (x, w') end.
Definition clear (w : t) : t := [].
End FIFOWorkList.

(** ** Unordered containers with user-supplied hash and equality

    [std::unordered_set] and [std::unordered_map] find a key by its hash code
    first and by [operator==] next.  The standard leaves the order of
    iteration open.  The model lists the elements in the order of insertion,
    which stands for that unknown order: what is stated of a container below
    is stated of its elements, or up to a permutation of them. *)
Class Hashable (K : Type) := {
  key_eq : K → K → bool;
  key_hash : K → N
}.

Section unordered.
Context {K : Type} `{Hashable K}.

Definition key_match (k x : K) : bool :=
  (key_hash x =? key_hash k)%N && key_eq x k.

Definition unordered_set_count (k : K) (s : list K) : bool :=
  existsb (key_match k) s.

Definition unordered_set_emplace (k : K) (s : list K) : list K :=
  if unordered_set_count k s then s else s ++ [k].

(** [f] applied to [m[k]], where [operator[]] first inserts an empty value
    under [k] when no equal key is stored. *)
Fixpoint unordered_map_update {V} (f : V → V) (dflt : V) (k : K)
    (m : list (K * V)) : list (K * V) :=
  match m with
  | [] => [(k, f dflt)]
  | (k', v) :: m' =>
      if key_match k k' then (k', f v) :: m'
      else (k', v) :: unordered_map_update f dflt k m'
  end.

Fixpoint unordered_map_find {V} (k : K) (m : list (K * V)) : option V :=
  match m with
  | [] => None
  | (k', v) :: m' => if key_match k k' then Some v else unordered_map_find k m'
  end.
End unordered.

(** ** What the external collaborators hand to [main] *)

(** The result of the variable-recovery pass, of SVF's IR builder and of the
    value-flow graph builder for one parsed module. *)
Record Analysis := {
  SrcVars : gmap ValuePtr DIVariable;
  Externals : ExtAPI;
  getCallSiteSet : list CallSite;
  VFG : SVFG
}.

(** A run: the two command-line options, what [parseIRFile] and the analyses
    give for the file (or the parser's error message), and whether opening
    the output path sets the error code (which opening ["-"] never does). *)
Record Input := {
  BCFilename : string;
  OutJSON : string;
  parseIRFile : string + Analysis;
  open_error : bool
}.

(** ** fuzzalloc.h

    [tag_t] is [uint16_t].  The macro [RAND(x, y)] is modelled for operands
    that are tags, on an LP64 target: the operands are promoted to [int]
    (32 bits), [RAND_MAX] is an [int] constant of [<stdlib.h>], taken as a
    parameter, and [random()] returns a [long] (64 bits).  A signed operation
    whose result does not fit, or a division by zero, has no defined result. *)

Definition tag_t (z : Z) : Z := z mod 2 ^ 16.

Definition INT_MAX : Z := 2147483647.
Definition INT_MIN : Z := -2147483648.
Definition LONG_MAX : Z := 9223372036854775807.
Definition LONG_MIN : Z := -9223372036854775808.

Definition int_result (z : Z) : option Z :=
  if bool_decide (INT_MIN ≤ z ≤ INT_MAX)%Z then Some z else None.
Definition long_result (z : Z) : option Z :=
  if bool_decide (LONG_MIN ≤ z ≤ LONG_MAX)%Z then Some z else None.

Definition int_div (a b : Z) : option Z :=
  if bool_decide (b = 0%Z) then None else int_result (a ÷ b).
Definition long_div (a b : Z) : option Z :=
  if bool_decide (b = 0%Z) then None else long_result (a ÷ b).

(** [((tag_t)((x) + random() / (RAND_MAX / ((y) - (x) + 1) + 1)))], with
    [random] the value [random()] returns. *)
Definition RAND (RAND_MAX : Z) (x y : Z) (random : Z) : option Z :=
  width ← int_result (y - x) ≫= λ w, int_result (w + 1);
  divisor ← int_div RAND_MAX width ≫= λ q, int_result (q + 1);
  offset ← long_div random divisor;
  tag_t <$> long_result (x + offset).

(** The divisor of the macro when nothing overflows. *)
Definition RAND_divisor (RAND_MAX : Z) (x y : Z) : Z :=
  (RAND_MAX ÷ (y - x + 1) + 1)%Z.

(** ** Unsigned counters

    [n++] on an [unsigned] (32 bits, as [int] above): the successor modulo
    [2^32]. *)
Definition unsigned_incr (n : nat) : nat :=
  N.to_nat ((N.of_nat n + 1) mod 2 ^ 32)%N.

(** ** The tool *)

Section dataflow_sa.

(** [NDEBUG]: [true] when the macro is defined, so that [assert] expands to
    nothing and [llvm_unreachable] to an optimiser hint.  The source keeps
    [isTaggedAlloc] referenced through [(void)isTaggedAlloc;] for such builds. *)
Context (NDEBUG : bool).
Context (kFuzzallocTaggedAllocMD kFuzzallocInstrumentedDerefMD : string).
Context (print : Value → string).
Context (hash_ptr : NodePtr → N).

Definition kTaggedMalloc : string := "__tagged_malloc".
Definition kTaggedCalloc : string := "__tagged_calloc".
Definition kTaggedRealloc : string := "__tagged_realloc".

(** A check that exists only while assertions are compiled in. *)
Definition assert (cond : bool) (msg : string) : Res unit :=
  if NDEBUG then Ok () else if cond then Ok () else Halt (Abort msg).

(** An assertion that fails where the code goes on as if it held ([cast<>]
    and [dyn_cast<>] on a value they do not accept): a fatal abort with
    assertions, no defined behaviour without. *)
Definition failed_assertion {A} (msg : string) : Res A :=
  if NDEBUG then Halt Undefined else Halt (Abort msg).

(** A point the code declares unreachable: the message and a fatal abort
    with assertions, a hint to the optimiser without. *)
Definition llvm_unreachable {A} (msg : string) : Res A :=
  if NDEBUG then Halt Undefined else Halt (Abort msg).

(** *** Classes *)

Record Def := {
  Def_Node : NodePtr;
  Def_Val : option Value;
  Def_Var : option DIVariable
}.

Record Use := {
  Use_Node : NodePtr;
  Use_Val : Value;
  Use_Var : option DIVariable;
  Use_Loc : option DILocation
}.

Definition Def_new (g : SVFG) (Node : NodePtr) (Var : option DIVariable) : Def :=
  {| Def_Node := Node; Def_Val := node_value g Node; Def_Var := Var |}.

(** The constructor of [Use] goes through [cast<Instruction>(Val)], which
    asserts that [Val] is an instruction. *)
Definition Use_new (g : SVFG) (Node : NodePtr) (Var : option DIVariable) : Res Use :=
  match node_value g Node with
  | Some Val =>
      match asInstruction Val with
      | Some Inst => Ok {| Use_Node := Node; Use_Val := Val; Use_Var := Var;
                        Use_Loc := getDebugLoc Inst |}
      | None => failed_assertion "cast<Ty>() argument of incompatible type!"
      end
  | None => failed_assertion "isa<> used on a null pointer"
  end.

Definition Def_eq (a b : Def) : bool := (Def_Node a =? Def_Node b)%positive.
Definition Use_eq (a b : Use) : bool := (Use_Node a =? Use_Node b)%positive.

#[export] Instance hash_Def : Hashable Def :=
  {| key_eq := Def_eq; key_hash := λ d, hash_ptr (Def_Node d) |}.
#[export] Instance hash_Use : Hashable Use :=
  {| key_eq := Use_eq; key_hash := λ u, hash_ptr (Use_Node u) |}.

(** *** Rendering *)

Definition json_of_string (o : option string) : json :=
  match o with Some s => JString s | None => JNull end.
Definition json_of_unsigned (o : option nat) : json :=
  match o with Some n => JNumber n | None => JNull end.

Definition toJSON_Def (d : Def) : Res json :=
  Name ← match Def_Var d with
          | Some Var => Ok (DIVariable_getName Var)
          | None =>
              match Def_Val d with
              | Some Val => Ok (print Val)
              | None => Halt Undefined
              end
          end;
  let Filename := DIVariable_getFile <$> Def_Var d in
  Func ← match Def_Var d with
          | Some {| DIVariable_kind := DILocalVariable sp |} => Ok (Some sp)
          | _ =>
              match Def_Val d with
              | Some Val => Ok (getParentName <$> asInstruction Val)
              | None => failed_assertion "isa<> used on a null pointer"
              end
          end;
  let Line := DIVariable_getLine <$> Def_Var d in
  Ok (JArray [JString Name;
              JArray [json_of_string Filename; json_of_string Func;
                      json_of_unsigned Line]]).

Definition toJSON_Use (u : Use) : json :=
  let Name := match Use_Var u with
              | Some Var => DIVariable_getName Var
              | None => print (Use_Val u)
              end in
  let Filename := DILocation_getFile <$> Use_Loc u in
  let Func := match Use_Loc u with
              | Some Loc => Some (DILocation_getSubprogram Loc)
              | None => getParentName <$> asInstruction (Use_Val u)
              end in
  let Line := DILocation_getLine <$> Use_Loc u in
  JArray [JString Name; JArray [JNull; json_of_string Func; json_of_unsigned Line]].

(** *** Helper functions *)

Definition hasMetadata (Inst : Instruction) : bool :=
  match getDebugLoc Inst, metadata Inst with
  | None, [] => false
  | _, _ => true
  end.

Definition getMetadata (Inst : Instruction) (Kind : string) : bool :=
  bool_decide (Kind ∈ metadata Inst).

Definition isTaggedAlloc (V : option Value) : bool :=
  match V with
  | None => false
  | Some v =>
      match asInstruction v with
      | Some Inst => hasMetadata Inst && getMetadata Inst kFuzzallocTaggedAllocMD
      | None => false
      end
  end.

Definition isInstrumentedDeref (V : option Value) : bool :=
  match V with
  | None => false
  | Some v =>
      match asInstruction v with
      | Some Inst => hasMetadata Inst && getMetadata Inst kFuzzallocInstrumentedDerefMD
      | None => false
      end
  end.

Definition SrcVars_lookup (an : Analysis) (V : option Value) : option DIVariable :=
  match V with Some v => SrcVars an !! addr v | None => None end.

(** *** Get definitions *)

Definition is_tagged_name (name : string) : bool :=
  (name =? kTaggedMalloc)%string || (name =? kTaggedCalloc)%string
  || (name =? kTaggedRealloc)%string.

Fixpoint collect_defs (an : Analysis) (sites : list CallSite) (Defs : list Def)
    : Res (list Def) :=
  match sites with
  | [] => Ok Defs
  | SVFCallSite :: rest =>
      let CS := getCallSite SVFCallSite in
      match getCallee SVFCallSite with
      | None => collect_defs an rest Defs
      | Some F =>
          if is_tagged_name (Function_getName F) then
            _ ← assert (isTaggedAlloc (Some CS))
                  "Tagged alloc must have fuzzalloc metadata";
            _ ← assert (is_alloc (Externals an) F || is_realloc (Externals an) F)
                  "Tagged function must (re)allocate";
            let VNode := getDefSVFGNode SVFCallSite in
            collect_defs an rest
              (Defs ++ [Def_new (VFG an) VNode
                          (SrcVars_lookup an (node_value (VFG an) VNode))])
          else collect_defs an rest Defs
      end
  end.

(** *** Collect uses *)

(** One iteration of the loop over the out edges of the popped node. *)
Definition visit_succ (st : FIFOWorkList.t * gset NodePtr) (Succ : NodePtr)
    : FIFOWorkList.t * gset NodePtr :=
  if decide (Succ ∈ st.2) then st
  else (FIFOWorkList.push Succ st.1, {[Succ]} ∪ st.2).

(** The [while (!Worklist.empty())] loop.  [Popped] is not a variable of the
    program: it logs the nodes in the order [Worklist.pop()] returns them. *)
Fixpoint traverse (g : SVFG) (fuel : nat) (Worklist : FIFOWorkList.t)
    (Visited : gset NodePtr) (Popped : list NodePtr)
    : option (gset NodePtr * list NodePtr) :=
  match fuel with
  | O => None
  | S fuel' =>
      match FIFOWorkList.pop Worklist with
      | None => Some (Visited, Popped)
      | Some (Node, Worklist') =>
          let st := foldl visit_succ (Worklist', Visited) (out_edges g Node) in
          traverse g fuel' st.1 st.2 (Popped ++ [Node])
      end
  end.

Definition traverse_fuel (g : SVFG) : nat := size (graph_nodes g) + 2.

(** The loop started the way [main] starts it for the definition at [root]:
    both containers cleared, the root pushed. *)
Definition traverse_from (g : SVFG) (root : NodePtr)
    : option (gset NodePtr * list NodePtr) :=
  traverse g (traverse_fuel g)
    (FIFOWorkList.push root (FIFOWorkList.clear [])) ∅ [].

Definition visited_from (g : SVFG) (root : NodePtr) : gset NodePtr :=
  match traverse_from g root with
  | Some (Visited, _) => Visited
  | None => ∅
  end.

Abbreviation Chains := (list (Def * list Use)).

(** "A use must be a load or store". *)
Definition use_pointer_operand (UseV : option Value) : Res ValuePtr :=
  match UseV with
  | Some {| asInstruction := Some {| getOpcode := LoadInst p |} |} => Ok p
  | Some {| asInstruction := Some {| getOpcode := StoreInst p |} |} => Ok p
  | _ => llvm_unreachable "use must be a load or store"
  end.

(** The body of the loop over [Visited]. *)
Definition record_use (an : Analysis) (d : Def) (st : Chains * nat)
    (UseN : NodePtr) : Res (Chains * nat) :=
  let UseV := node_value (VFG an) UseN in
  if negb (isInstrumentedDeref UseV) then Ok st
  else
    V ← use_pointer_operand UseV;
    u ← Use_new (VFG an) UseN (SrcVars an !! V);
    Ok (unordered_map_update (unordered_set_emplace u) [] d st.1,
        unsigned_incr st.2).

Fixpoint for_each {S A} (body : S → A → Res S) (s : S) (l : list A) : Res S :=
  match l with
  | [] => Ok s
  | x :: l' => s' ← body s x; for_each body s' l'
  end.

(** The body of the loop over [Defs]. *)
Definition collect_uses_of (an : Analysis) (st : Chains * nat) (d : Def)
    : Res (Chains * nat) :=
  let Visited := visited_from (VFG an) (Def_Node d) in
  for_each (record_use an d) st (elements Visited).

Definition collect_uses (an : Analysis) (Defs : list Def) : Res (Chains * nat) :=
  for_each (collect_uses_of an) ([], 0) Defs.

(** *** Save output JSON *)

Definition chain_toJSON (entry : Def * list Use) : Res json :=
  d ← toJSON_Def entry.1;
  Ok (JArray [d; JArray (toJSON_Use <$> entry.2)]).

Fixpoint chains_toJSON (DefUseChains : Chains) : Res (list json) :=
  match DefUseChains with
  | [] => Ok []
  | entry :: rest =>
      j ← chain_toJSON entry;
      J ← chains_toJSON rest;
      Ok (j :: J)
  end.

(** [json::Value{J}] goes through the initializer-list constructor, which
    makes an array of its one element, the array built from [J]. *)
Definition save_output (inp : Input) (DefUseChains : Chains) : M unit :=
  if (OutJSON inp =? "")%string then mret ()
  else
    status_stream ("Serializing def/use chains to JSON..." +:+ nl);;
    J ← lift (chains_toJSON DefUseChains);
    (if open_error inp then
       error_stream ("Unable to open " +:+ OutJSON inp +:+ nl);; exit 1
     else mret ());;
    status_stream ("Writing to " +:+ OutJSON inp +:+ "..." +:+ nl);;
    raw_fd_ostream (OutJSON inp) (JArray [JArray J]).

Definition main (inp : Input) : M Z :=
  status_stream ("Parsing " +:+ BCFilename inp +:+ "..." +:+ nl);;
  match parseIRFile inp with
  | inl Err =>
      error_stream ("Failed to parse `" +:+ BCFilename inp +:+ "`: " +:+ Err +:+ nl);;
      exit 1
  | inr an =>
      status_stream ("Running variable recovery pass..." +:+ nl);;
      status_stream ("Doing pointer analysis..." +:+ nl);;
      status_stream ("Collecting definitions..." +:+ nl);;
      Defs ← lift (collect_defs an (getCallSiteSet an) []);
      (if bool_decide (Defs = []) then
         error_stream ("Failed to collect any def sites" +:+ nl);; exit 1
       else mret ());;
      success_stream ("Collected " +:+ pretty (length Defs) +:+ " def sites" +:+ nl);;
      status_stream ("Collecting uses..." +:+ nl);;
      r ← lift (collect_uses an Defs);
      success_stream ("Collected " +:+ pretty r.2 +:+ " use sites" +:+ nl);;
      save_output inp r.1;;
      mret 0%Z
  end.

(** ** Notions the properties are stated with *)

(** A dataflow edge of the graph. *)
Definition edge (g : SVFG) (a b : NodePtr) : Prop := b ∈ out_edges g a.

(** The use set stored for a definition (empty when the store has no entry). *)
Definition uses_of (DefUseChains : Chains) (d : Def) : list Use :=
  default [] (unordered_map_find d DefUseChains).

(** [DefUseChains[Def].emplace(Use, ...)] for an already built use. *)
Definition chain_insert (d : Def) (u : Use) (DefUseChains : Chains) : Chains :=
  unordered_map_update (unordered_set_emplace u) [] d DefUseChains.

Definition is_load_or_store (V : option Value) : bool :=
  match V with
  | Some {| asInstruction := Some {| getOpcode := LoadInst _ |} |} => true
  | Some {| asInstruction := Some {| getOpcode := StoreInst _ |} |} => true
  | _ => false
  end.

(** A call site whose callee is resolved and bears one of the three names. *)
Definition tagged_callee (s : CallSite) : bool :=
  match getCallee s with
  | Some F => is_tagged_name (Function_getName F)
  | None => false
  end.

(** The definition [collect_defs] builds for a call site. *)
Definition def_of_site (an : Analysis) (s : CallSite) : Def :=
  Def_new (VFG an) (getDefSVFGNode s)
    (SrcVars_lookup an (node_value (VFG an) (getDefSVFGNode s))).


(** A use rendered the way the specification words it: the name and two
    positional fields, function and line. *)
Definition toJSON_Use_spec (u : Use) : json :=
  match toJSON_Use u with
  | JArray [name; JArray [_; func; line]] => JArray [name; JArray [func; line]]
  | j => j
  end.

Definition optional_string (j : json) : Prop := j = JNull ∨ ∃ s, j = JString s.
Definition optional_unsigned (j : json) : Prop := j = JNull ∨ ∃ n, j = JNumber n.

(** The nodes popped after the root, followed by the queued ones, list the
    visited set without repetition. *)
Definition queue_inv (P' : list NodePtr) (st : FIFOWorkList.t * gset NodePtr) : Prop :=
  NoDup (P' ++ st.1) ∧ list_to_set (P' ++ st.1) = st.2.

(** The two assertions guarding a definition hold for the call site. *)
Definition site_checked (an : Analysis) (s : CallSite) : bool :=
  match getCallee s with
  | Some F =>
      isTaggedAlloc (Some (getCallSite s))
      && (is_alloc (Externals an) F || is_realloc (Externals an) F)
  | None => false
  end.

(** What [main] has written to the standard output when the definition
    collector returns. *)
Definition log_collecting (inp : Input) (w : World) : World :=
  {| outs := outs w ++ ["[*] " +:+ ("Parsing " +:+ BCFilename inp +:+ "..." +:+ nl);
                        "[*] " +:+ ("Running variable recovery pass..." +:+ nl);
                        "[*] " +:+ ("Doing pointer analysis..." +:+ nl);
                        "[*] " +:+ ("Collecting definitions..." +:+ nl)];
     errs := errs w; files := files w; dash := dash w |}.

(** The rendering of a record without debug metadata, as the specification
    words it: the printed value for a name, the name of the containing block
    for a function, no file and no line. *)
Definition fallback_rendering (v : Value) : json :=
  JArray [JString (print v);
          JArray [JNull; json_of_string (getParentName <$> asInstruction v); JNull]].

(** The visited nodes of a definition that pass the instrumented-dereference
    predicate, as many as the loop over [Visited] counts for it. *)
Definition instrumented_count (an : Analysis) (d : Def) : nat :=
  length (filter (λ n, isInstrumentedDeref (node_value (VFG an) n) = true)
            (elements (visited_from (VFG an) (Def_Node d)))).

(** The number of (definition, use) pairs the chain store holds. *)
Definition stored_pairs (DefUseChains : Chains) : nat :=
  sum_list ((λ entry, length entry.2) <$> DefUseChains).


(** What a use built by the loop over [Visited] holds: the value of its
    node, an annotated load or store, the variable recovered for the pointer
    operand of that instruction and its debug location. *)
Definition use_recorded (an : Analysis) (u : Use) : Prop :=
  node_value (VFG an) (Use_Node u) = Some (Use_Val u)
  ∧ ∃ Inst p,
      asInstruction (Use_Val u) = Some Inst
      ∧ (getOpcode Inst = LoadInst p ∨ getOpcode Inst = StoreInst p)
      ∧ kFuzzallocInstrumentedDerefMD ∈ metadata Inst
      ∧ Use_Var u = SrcVars an !! p
      ∧ Use_Loc u = getDebugLoc Inst.

(** The shape the chain store keeps: its keys sit on pairwise distinct
    nodes and are collected definitions, and every use set is non-empty, has
    pairwise distinct nodes and holds uses built by the loop over [Visited]. *)
Definition chain_store_ok (an : Analysis) (Defs : list Def) (c : Chains) : Prop :=
  NoDup ((λ entry, Def_Node entry.1) <$> c)
  ∧ Forall (λ entry, entry.1 ∈ Defs ∧ entry.2 ≠ []
                     ∧ NoDup (Use_Node <$> entry.2)
                     ∧ Forall (use_recorded an) entry.2) c.

(** ** Sample programs

    Small graphs and call sites on which the statements below are run. *)

Definition ex_tagged_md : string := "fuzzalloc.tagged_alloc".
Definition ex_deref_md : string := "fuzzalloc.instrumented_deref".
Definition ex_print (v : Value) : string := "%" +:+ pretty (Npos (addr v)).
Definition ex_hash (p : NodePtr) : N := Npos p.

Definition ex_inst (op : Opcode) (md : list string) (loc : option DILocation)
    : Instruction :=
  {| getOpcode := op; metadata := md; getDebugLoc := loc; getParentName := "entry" |}.

Definition ex_loc : DILocation :=
  {| DILocation_getFile := "a.c"; DILocation_getSubprogram := "main";
     DILocation_getLine := 7 |}.

(** [%10 = call @__tagged_malloc(...)], annotated as a tagged allocation. *)
Definition ex_call : Value :=
  {| addr := 10; asInstruction := Some (ex_inst CallInst [ex_tagged_md] None) |}.
(** [%11 = getelementptr %10, ...]. *)
Definition ex_gep : Value :=
  {| addr := 11; asInstruction := Some (ex_inst OtherInst [] None) |}.
(** [%12 = load %11], annotated as an instrumented dereference. *)
Definition ex_load : Value :=
  {| addr := 12; asInstruction := Some (ex_inst (LoadInst 11) [ex_deref_md] None) |}.
(** The same load with a debug location. *)
Definition ex_load_dbg : Value :=
  {| addr := 12;
     asInstruction := Some (ex_inst (LoadInst 11) [ex_deref_md] (Some ex_loc)) |}.
(** A call to [__tagged_malloc] that carries no annotation. *)
Definition ex_plain_call : Value :=
  {| addr := 13; asInstruction := Some (ex_inst CallInst [] None) |}.
(** A call annotated as an instrumented dereference. *)
Definition ex_marked_call : Value :=
  {| addr := 14; asInstruction := Some (ex_inst CallInst [ex_deref_md] None) |}.

Definition ex_malloc : Function := {| Function_getName := "__tagged_malloc" |}.
Definition ex_puts : Function := {| Function_getName := "puts" |}.

Definition ex_ext : ExtAPI :=
  {| is_alloc := λ F, bool_decide (Function_getName F = "__tagged_malloc")
                      || bool_decide (Function_getName F = "__tagged_calloc");
     is_realloc := λ F, bool_decide (Function_getName F = "__tagged_realloc") |}.
(** An external-API table that knows none of the three functions. *)
Definition ex_ext_none : ExtAPI :=
  {| is_alloc := λ _, false; is_realloc := λ _, false |}.

Definition ex_node (v : Value) (succs : list NodePtr) : VFGNode :=
  {| getValue := Some v; getOutEdges := succs |}.

(** 1 (the call) → 2 (pointer arithmetic) → 3 (the load). *)
Definition ex_chain : SVFG :=
  {[ 1%positive := ex_node ex_call [2%positive];
     2%positive := ex_node ex_gep [3%positive];
     3%positive := ex_node ex_load [] ]}.
(** The same with an edge from 2 back to the root. *)
Definition ex_cycle : SVFG :=
  {[ 1%positive := ex_node ex_call [2%positive];
     2%positive := ex_node ex_gep [3%positive; 1%positive];
     3%positive := ex_node ex_load [] ]}.
(** 1 (the call) → 2 (a call that carries the dereference annotation). *)
Definition ex_marked : SVFG :=
  {[ 1%positive := ex_node ex_call [2%positive];
     2%positive := ex_node ex_marked_call [] ]}.

Definition ex_site_malloc : CallSite :=
  {| getCallSite := ex_call; getCallee := Some ex_malloc; getDefSVFGNode := 1 |}.
Definition ex_site_plain : CallSite :=
  {| getCallSite := ex_plain_call; getCallee := Some ex_malloc; getDefSVFGNode := 1 |}.
Definition ex_site_indirect : CallSite :=
  {| getCallSite := ex_plain_call; getCallee := None; getDefSVFGNode := 2 |}.
Definition ex_site_puts : CallSite :=
  {| getCallSite := ex_plain_call; getCallee := Some ex_puts; getDefSVFGNode := 2 |}.

Definition ex_analysis (ext : ExtAPI) (sites : list CallSite) (g : SVFG) : Analysis :=
  {| SrcVars := ∅; Externals := ext; getCallSiteSet := sites; VFG := g |}.

Definition ex_input (an : Analysis) : Input :=
  {| BCFilename := "a.bc"; OutJSON := "out.json"; parseIRFile := inr an;
     open_error := false |}.

Definition ex_world : World := {| outs := []; errs := []; files := ∅; dash := [] |}.

Definition ex_def (g : SVFG) : Def := Def_new g 1 None.

Definition ex_use : Use :=
  {| Use_Node := 3; Use_Val := ex_load; Use_Var := None; Use_Loc := None |}.
Definition ex_use_dbg : Use :=
  {| Use_Node := 3; Use_Val := ex_load_dbg; Use_Var := None; Use_Loc := Some ex_loc |}.

(** Two call sites whose value is defined at the same node of the graph. *)
Definition ex_site_malloc_again : CallSite :=
  {| getCallSite := ex_call; getCallee := Some ex_malloc; getDefSVFGNode := 1 |}.

Definition ex_var_local : DIVariable :=
  {| DIVariable_getName := "p"; DIVariable_getFile := "a.c";
     DIVariable_getLine := 3; DIVariable_kind := DILocalVariable "main" |}.
Definition ex_var_global : DIVariable :=
  {| DIVariable_getName := "buf"; DIVariable_getFile := "a.c";
     DIVariable_getLine := 1; DIVariable_kind := DIGlobalVariable |}.

(** The chain with a variable recovered for the pointer operand of the load. *)
Definition ex_analysis_vars : Analysis :=
  {| SrcVars := {[ 11%positive := ex_var_local ]}; Externals := ex_ext;
     getCallSiteSet := [ex_site_malloc]; VFG := ex_chain |}.

Definition ex_input_unparsed : Input :=
  {| BCFilename := "a.bc"; OutJSON := "out.json";
     parseIRFile := inl "expected top-level entity"; open_error := false |}.
Definition ex_input_unwritable (an : Analysis) : Input :=
  {| BCFilename := "a.bc"; OutJSON := "/out.json"; parseIRFile := inr an;
     open_error := true |}.
Definition ex_input_quiet (an : Analysis) : Input :=
  {| BCFilename := "a.bc"; OutJSON := ""; parseIRFile := inr an;
     open_error := false |}.
(** [-out=-]: the chains go to the standard output. *)
Definition ex_input_dash (an : Analysis) : Input :=
  {| BCFilename := "a.bc"; OutJSON := "-"; parseIRFile := inr an;
     open_error := false |}.

(** 1 → 2 and 1 → 3 with the out edges of the root in the other order. *)
Definition ex_fan : SVFG :=
  {[ 1%positive := ex_node ex_call [2%positive; 3%positive];
     2%positive := ex_node ex_gep [];
     3%positive := ex_node ex_load [] ]}.
Definition ex_fan_swapped : SVFG :=
  {[ 1%positive := ex_node ex_call [3%positive; 2%positive; 3%positive];
     2%positive := ex_node ex_gep [];
     3%positive := ex_node ex_load [] ]}.

(** The chain whose root has no value. *)
Definition ex_null_root : SVFG :=
  {[ 1%positive := {| getValue := None; getOutEdges := [3%positive] |};
     3%positive := ex_node ex_load [] ]}.
(** A call whose result flows into pointer arithmetic only. *)
Definition ex_unused : SVFG :=
  {[ 1%positive := ex_node ex_call [2%positive];
     2%positive := ex_node ex_gep [] ]}.

Definition ex_use_var : Use :=
  {| Use_Node := 3; Use_Val := ex_load; Use_Var := Some ex_var_local;
     Use_Loc := None |}.

(** ** The traversal *)

(** The traversal does not depend on the parameters of the build. *)
Ltac graph_only :=
  clear NDEBUG kFuzzallocTaggedAllocMD kFuzzallocInstrumentedDerefMD print hash_ptr.

Lemma out_edges_graph_nodes g n s : s ∈ out_edges g n → s ∈ graph_nodes g.
Proof.
  unfold out_edges, graph_nodes. destruct (g !! n) as [nd|] eqn:E.
  - intros Hs. apply elem_of_union_r, elem_of_union_list.
    exists (list_to_set (getOutEdges nd)). split.
    + apply list_elem_of_fmap. exists (n, nd). split; [done|].
      by apply elem_of_map_to_list.
    + by apply elem_of_list_to_set.
  - by intros ?%elem_of_nil.
Qed.

Lemma push_elem x w y : y ∈ FIFOWorkList.push x w ↔ y ∈ w ∨ y = x.
Proof.
  unfold FIFOWorkList.push, FIFOWorkList.find. case_bool_decide.
  - split; [by left|]. intros [?| ->]; done.
  - rewrite elem_of_app, list_elem_of_singleton. done.
Qed.

Lemma push_fresh x w : x ∉ w → FIFOWorkList.push x w = w ++ [x].
Proof.
  intros Hx. unfold FIFOWorkList.push, FIFOWorkList.find.
  by rewrite bool_decide_eq_false_2.
Qed.

(** What the loop over the out edges does to the two containers. *)
Lemma foldl_visit_succ l : ∀ st,
  (foldl visit_succ st l).2 = st.2 ∪ list_to_set l
  ∧ (∀ x, x ∈ st.1 → x ∈ (foldl visit_succ st l).1)
  ∧ (∀ x, x ∈ (foldl visit_succ st l).2 → x ∈ st.2 ∨ x ∈ (foldl visit_succ st l).1).
Proof.
  graph_only.
  induction l as [|s l IH]; intros st; simpl.
  - split; [set_solver|]. split; [done|]. by left.
  - destruct (IH (visit_succ st s)) as (HV & HW & HN).
    unfold visit_succ in *. destruct (decide (s ∈ st.2)) as [Hin|Hin].
    + split; [rewrite HV; set_solver|]. split; [done|]. done.
    + simpl in *. split; [rewrite HV; set_solver|]. split.
      * intros x Hx. apply HW, push_elem. by left.
      * intros x Hx. destruct (HN x Hx) as [Hx'|Hx']; [|by right].
        apply elem_of_union in Hx' as [->%elem_of_singleton|Hx']; [|by left].
        right. apply HW, push_elem. by right.
Qed.

Lemma visit_succ_queue_inv P' st s : queue_inv P' st → queue_inv P' (visit_succ st s).
Proof.
  graph_only.
  intros [Hnd Hset]. unfold visit_succ.
  destruct (decide (s ∈ st.2)) as [Hin|Hin]; [done|].
  assert (s ∉ P' ++ st.1) as Hs.
  { intros Hs. apply Hin. rewrite <- Hset. by apply elem_of_list_to_set. }
  assert (s ∉ st.1) as Hw by (intros ?; apply Hs, elem_of_app; by right).
  unfold queue_inv. simpl. rewrite (push_fresh _ _ Hw), app_assoc. split.
  - apply NoDup_app. split; [done|]. split; [|apply NoDup_singleton].
    intros x Hx ->%list_elem_of_singleton. done.
  - rewrite list_to_set_app_L, Hset. simpl. set_solver.
Qed.

Lemma foldl_queue_inv P' l : ∀ st, queue_inv P' st → queue_inv P' (foldl visit_succ st l).
Proof.
  induction l as [|s l IH]; intros st Hst; simpl; [done|].
  by apply IH, visit_succ_queue_inv.
Qed.

Lemma closed_reach g root (V : gset NodePtr) :
  (∀ s, edge g root s → s ∈ V) →
  (∀ n, n ∈ V → ∀ s, edge g n s → s ∈ V) →
  ∀ m, tc (edge g) root m → m ∈ V.
Proof.
  intros Hroot Hclosed m Hm. revert m Hm.
  apply tc_ind_r; [exact Hroot|].
  intros y z _ Hyz Hy. by eapply Hclosed.
Qed.

(** The loop from any state it reaches once the root has been popped. *)
Lemma traverse_inv g root fuel : ∀ WL V P',
  queue_inv P' (WL, V) →
  V ⊆ graph_nodes g →
  (∀ n, n ∈ V → tc (edge g) root n) →
  (∀ s, edge g root s → s ∈ V) →
  (∀ n, n ∈ V → n ∈ WL ∨ ∀ s, edge g n s → s ∈ V) →
  size (graph_nodes g) - length P' < fuel →
  ∃ Vf Pf', traverse g fuel WL V (root :: P') = Some (Vf, root :: Pf')
    ∧ NoDup Pf' ∧ list_to_set Pf' = Vf ∧ Vf ⊆ graph_nodes g
    ∧ (∀ n, n ∈ Vf ↔ tc (edge g) root n).
Proof.
  induction fuel as [|fuel IH]; intros WL V P' HQ HU Hsound Hroot Hpend Hfuel; [lia|].
  destruct WL as [|n WL']; simpl.
  - destruct HQ as [Hnd Hset]. simpl in *. rewrite app_nil_r in *.
    exists V, P'. repeat split; try done.
    + apply Hsound.
    + apply closed_reach; [done|]. intros x Hx.
      destruct (Hpend x Hx) as [?%elem_of_nil|?]; done.
  - set (st := foldl visit_succ (WL', V) (out_edges g n)).
    destruct (foldl_visit_succ (out_edges g n) (WL', V)) as (HV & HW & HN).
    fold st in HV, HW, HN. simpl in HV, HW.
    pose proof HQ as [Hnd Hset]. simpl in Hnd, Hset.
    assert (n ∈ V) as HnV.
    { rewrite <- Hset. apply elem_of_list_to_set, elem_of_app. right. left. }
    assert (length P' + 1 + length WL' ≤ size (graph_nodes g))%nat as Hlen.
    { pose proof (subseteq_size _ _ HU) as Hsz.
      rewrite <- Hset, size_list_to_set in Hsz by done.
      rewrite length_app in Hsz. simpl in Hsz. lia. }
    destruct (IH st.1 st.2 (P' ++ [n])) as (Vf & Pf' & Heq & ?).
    + destruct st as [w v] eqn:Est. apply (f_equal id) in Est. unfold id in Est.
      simpl. rewrite <- Est. apply foldl_queue_inv.
      unfold queue_inv. simpl. by rewrite <- !app_assoc.
    + rewrite HV. apply union_subseteq. split; [done|].
      intros s Hs%elem_of_list_to_set. by eapply out_edges_graph_nodes.
    + intros x. rewrite HV, elem_of_union, elem_of_list_to_set.
      intros [Hx|Hx]; [by apply Hsound|].
      eapply tc_r; [by apply Hsound|done].
    + intros s Hs. rewrite HV. apply elem_of_union_l. by apply Hroot.
    + intros x Hx. destruct (HN x Hx) as [Hx'|Hx']; [|by left].
      simpl in Hx'. destruct (Hpend x Hx') as [Hq|Hc].
      * apply elem_of_cons in Hq as [->|Hq]; [|left; by apply HW].
        right. intros s Hs. rewrite HV. by apply elem_of_union_r, elem_of_list_to_set.
      * right. intros s Hs. rewrite HV. apply elem_of_union_l. by apply Hc.
    + rewrite length_app. simpl. lia.
    + exists Vf, Pf'. split; [|done]. exact Heq.
Qed.

(** The traversal of [main] halts on every graph; it pops the root, then
    every visited node once, and visits exactly the nodes that one or more
    edges lead to from the root. *)
Lemma traverse_from_spec g root :
  ∃ V P', traverse_from g root = Some (V, root :: P')
    ∧ NoDup P' ∧ list_to_set P' = V ∧ V ⊆ graph_nodes g
    ∧ (∀ n, n ∈ V ↔ tc (edge g) root n).
Proof.
  graph_only.
  unfold traverse_from, traverse_fuel.
  replace (size (graph_nodes g) + 2) with (S (size (graph_nodes g) + 1)) by lia.
  simpl.
  set (st := foldl visit_succ ([], ∅) (out_edges g root)).
  destruct (foldl_visit_succ (out_edges g root) ([], ∅)) as (HV & HW & HN).
  fold st in HV, HW, HN. simpl in HV, HW.
  destruct (traverse_inv g root (size (graph_nodes g) + 1) st.1 st.2 [])
    as (Vf & Pf' & Heq & ?).
  - destruct st as [w v] eqn:Est. apply (f_equal id) in Est. unfold id in Est.
    simpl. rewrite <- Est. apply foldl_queue_inv. split; simpl; [constructor|done].
  - rewrite HV. apply union_subseteq. split; [set_solver|].
    intros s Hs%elem_of_list_to_set. by eapply out_edges_graph_nodes.
  - intros x. rewrite HV, elem_of_union, elem_of_list_to_set.
    intros [Hx|Hx]; [set_solver|]. by apply tc_once.
  - intros s Hs. rewrite HV. by apply elem_of_union_r, elem_of_list_to_set.
  - intros x Hx. destruct (HN x Hx) as [Hx'|Hx']; [set_solver|by left].
  - simpl. lia.
  - exists Vf, Pf'. split; [|done]. exact Heq.
Qed.

Lemma visited_from_spec g root n : n ∈ visited_from g root ↔ tc (edge g) root n.
Proof.
  unfold visited_from.
  destruct (traverse_from_spec g root) as (V & P' & -> & _ & _ & _ & HV). apply HV.
Qed.

(** ** The chain store *)

Lemma key_match_Def (k x : Def) : key_match k x = (Def_Node x =? Def_Node k)%positive.
Proof.
  unfold key_match. simpl. unfold Def_eq.
  destruct (Pos.eqb_spec (Def_Node x) (Def_Node k)) as [->|]; [|apply andb_false_r].
  by rewrite N.eqb_refl.
Qed.

Lemma key_match_Use (k x : Use) : key_match k x = (Use_Node x =? Use_Node k)%positive.
Proof.
  unfold key_match. simpl. unfold Use_eq.
  destruct (Pos.eqb_spec (Use_Node x) (Use_Node k)) as [->|]; [|apply andb_false_r].
  by rewrite N.eqb_refl.
Qed.

Lemma unordered_set_count_Use (u : Use) (s : list Use) :
  unordered_set_count u s = true ↔ Use_Node u ∈ Use_Node <$> s.
Proof.
  unfold unordered_set_count. rewrite existsb_exists, list_elem_of_fmap.
  split.
  - intros (x & Hx%list_elem_of_In & Hm). rewrite key_match_Use in Hm.
    apply Pos.eqb_eq in Hm. by exists x.
  - intros (x & Hn & Hx). exists x. split; [by apply list_elem_of_In|].
    rewrite key_match_Use. by apply Pos.eqb_eq.
Qed.

Lemma unordered_set_emplace_nodes (u : Use) (s : list Use) (n : NodePtr) :
  n ∈ Use_Node <$> unordered_set_emplace u s ↔ n ∈ Use_Node <$> s ∨ n = Use_Node u.
Proof.
  unfold unordered_set_emplace.
  destruct (unordered_set_count u s) eqn:E.
  - apply unordered_set_count_Use in E. split; [by left|]. by intros [?| ->].
  - rewrite fmap_app, elem_of_app. simpl. by rewrite list_elem_of_singleton.
Qed.

Lemma unordered_map_find_node (k k' : Def) (c : Chains) :
  Def_Node k = Def_Node k' → unordered_map_find k c = unordered_map_find k' c.
Proof.
  intros Hk. induction c as [|[x v] c IH]; simpl; [done|].
  rewrite !key_match_Def, Hk. by rewrite IH.
Qed.

Lemma unordered_map_find_insert (d : Def) (u : Use) (c : Chains) (k : Def) :
  unordered_map_find k (chain_insert d u c)
  = if (Def_Node k =? Def_Node d)%positive
    then Some (unordered_set_emplace u (uses_of c d))
    else unordered_map_find k c.
Proof.
  unfold chain_insert, uses_of. induction c as [|[x v] c IH]; simpl.
  - rewrite key_match_Def, Pos.eqb_sym. by destruct (Def_Node k =? Def_Node d)%positive.
  - rewrite !key_match_Def.
    destruct (Pos.eqb_spec (Def_Node x) (Def_Node d)) as [Hxd|Hxd]; simpl;
      rewrite key_match_Def.
    + rewrite Hxd. by destruct (Pos.eqb_spec (Def_Node d) (Def_Node k)) as [->|Hne];
        [rewrite Pos.eqb_refl|rewrite (proj2 (Pos.eqb_neq _ _)) by congruence].
    + destruct (Pos.eqb_spec (Def_Node x) (Def_Node k)) as [Hxk|Hxk].
      * by rewrite (proj2 (Pos.eqb_neq _ _)) by congruence.
      * apply IH.
Qed.

Lemma uses_of_insert_nodes (d : Def) (u : Use) (c : Chains) (k : Def) (n : NodePtr) :
  n ∈ Use_Node <$> uses_of (chain_insert d u c) k
  ↔ n ∈ Use_Node <$> uses_of c k ∨ (Def_Node k = Def_Node d ∧ n = Use_Node u).
Proof.
  unfold uses_of at 1. rewrite unordered_map_find_insert.
  destruct (Pos.eqb_spec (Def_Node k) (Def_Node d)) as [Hkd|Hkd]; simpl.
  - rewrite unordered_set_emplace_nodes.
    unfold uses_of. rewrite (unordered_map_find_node k d) by done. naive_solver.
  - fold (uses_of c k). naive_solver.
Qed.

Lemma unordered_set_emplace_again (u u' : Use) (s : list Use) :
  Use_Node u' = Use_Node u →
  unordered_set_emplace u' (unordered_set_emplace u s) = unordered_set_emplace u s.
Proof.
  intros Hn. unfold unordered_set_emplace at 1.
  rewrite (proj2 (unordered_set_count_Use u' _)); [done|].
  rewrite Hn. apply unordered_set_emplace_nodes. by right.
Qed.

Lemma chain_insert_again (d d' : Def) (u u' : Use) (c : Chains) :
  Def_Node d' = Def_Node d → Use_Node u' = Use_Node u →
  chain_insert d' u' (chain_insert d u c) = chain_insert d u c.
Proof.
  intros Hd Hu. unfold chain_insert. induction c as [|[k v] c IH]; simpl.
  - rewrite key_match_Def, Hd, Pos.eqb_refl.
    by rewrite unordered_set_emplace_again.
  - rewrite key_match_Def.
    destruct (Def_Node k =? Def_Node d)%positive eqn:E; simpl;
      rewrite key_match_Def, Hd, E.
    + by rewrite unordered_set_emplace_again.
    + by rewrite IH.
Qed.

(** ** Recording the uses of one definition *)

Lemma llvm_unreachable_bind {A B} (msg : string) (f : A → Res B) :
  llvm_unreachable msg ≫= f = llvm_unreachable msg.
Proof. unfold llvm_unreachable. by destruct NDEBUG. Qed.

Lemma record_use_skip an d st n :
  isInstrumentedDeref (node_value (VFG an) n) = false → record_use an d st n = Ok st.
Proof. intros H. unfold record_use. by rewrite H. Qed.

Lemma record_use_emit an d st n :
  isInstrumentedDeref (node_value (VFG an) n) = true →
  is_load_or_store (node_value (VFG an) n) = true →
  ∃ u, record_use an d st n = Ok (chain_insert d u st.1, unsigned_incr st.2) ∧ Use_Node u = n.
Proof.
  intros Hp Hls. unfold record_use, Use_new. rewrite Hp. simpl.
  destruct (node_value (VFG an) n) as [[a [[[p|p| |] md loc par]|]]|]; try done; simpl.
  all: eexists; split; [reflexivity|done].
Qed.

Lemma record_use_unreachable an d st n :
  isInstrumentedDeref (node_value (VFG an) n) = true →
  is_load_or_store (node_value (VFG an) n) = false →
  record_use an d st n = llvm_unreachable "use must be a load or store".
Proof.
  intros Hp Hls. unfold record_use. rewrite Hp. simpl.
  destruct (node_value (VFG an) n) as [[a [[[p|p| |] md loc par]|]]|];
    simpl in *; try congruence; apply llvm_unreachable_bind.
Qed.

(** The three cases of the loop body, told apart by the node. *)
Lemma record_use_cases an d st n :
  (isInstrumentedDeref (node_value (VFG an) n) = false ∧ record_use an d st n = Ok st)
  ∨ (isInstrumentedDeref (node_value (VFG an) n) = true
     ∧ is_load_or_store (node_value (VFG an) n) = true
     ∧ ∃ u, record_use an d st n = Ok (chain_insert d u st.1, unsigned_incr st.2) ∧ Use_Node u = n)
  ∨ (isInstrumentedDeref (node_value (VFG an) n) = true
     ∧ is_load_or_store (node_value (VFG an) n) = false
     ∧ record_use an d st n = llvm_unreachable "use must be a load or store").
Proof.
  destruct (isInstrumentedDeref (node_value (VFG an) n)) eqn:Hp.
  - destruct (is_load_or_store (node_value (VFG an) n)) eqn:Hls.
    + right; left. repeat split. by apply record_use_emit.
    + right; right. repeat split. by apply record_use_unreachable.
  - left. split; [done|]. by apply record_use_skip.
Qed.

(** The loop over [Visited] for one definition: either some visited node
    carries the annotation without being a load or a store, and the loop
    stops at [llvm_unreachable], or it completes and has added the annotated
    nodes to the entry of the definition. *)
Lemma for_each_record_use an d l : ∀ st,
  ((∃ n, n ∈ l ∧ isInstrumentedDeref (node_value (VFG an) n) = true
         ∧ is_load_or_store (node_value (VFG an) n) = false)
   ∧ for_each (record_use an d) st l = llvm_unreachable "use must be a load or store")
  ∨ ((∀ n, n ∈ l → isInstrumentedDeref (node_value (VFG an) n) = true →
           is_load_or_store (node_value (VFG an) n) = true)
     ∧ ∃ st', for_each (record_use an d) st l = Ok st'
        ∧ ∀ k m, m ∈ Use_Node <$> uses_of st'.1 k
            ↔ m ∈ Use_Node <$> uses_of st.1 k
              ∨ (Def_Node k = Def_Node d ∧ m ∈ l
                 ∧ isInstrumentedDeref (node_value (VFG an) m) = true)).
Proof.
  induction l as [|x l IH]; intros st; simpl.
  - right. split; [by intros n ?%elem_of_nil|]. exists st. split; [done|].
    intros k m. split; [by left|]. intros [?|(_ & ?%elem_of_nil & _)]; done.
  - destruct (record_use_cases an d st x)
      as [[Hp ->]|[(Hp & Hls & u & -> & Hu)|(Hp & Hls & ->)]]; simpl.
    + destruct (IH st) as [[(n & Hn & ?) ->]|[Hall (st' & -> & Hst')]].
      * left. split; [|done]. exists n. split; [by right|done].
      * right. split.
        { intros n [->|Hn]%elem_of_cons; [congruence|by apply Hall]. }
        exists st'. split; [done|]. intros k m. rewrite Hst', elem_of_cons.
        split; [naive_solver|].
        intros [?|(? & [->|?] & ?)]; [by left|congruence|right; done].
    + destruct (IH (chain_insert d u st.1, unsigned_incr st.2))
        as [[(n & Hn & ?) ->]|[Hall (st' & -> & Hst')]].
      * left. split; [|done]. exists n. split; [by right|done].
      * right. split.
        { intros n [->|Hn]%elem_of_cons; [done|by apply Hall]. }
        exists st'. split; [done|]. intros k m.
        rewrite Hst'. simpl. rewrite uses_of_insert_nodes, elem_of_cons.
        split; [naive_solver|].
        intros [?|(? & [->|?] & ?)]; [by left; left|left; right; done|right; done].
    + left. split; [|apply llvm_unreachable_bind].
      exists x. split; [by left|done].
Qed.

(** The loop over [Defs]. *)
Lemma for_each_collect_uses an Defs : ∀ st,
  ((∃ d n, d ∈ Defs ∧ n ∈ visited_from (VFG an) (Def_Node d)
           ∧ isInstrumentedDeref (node_value (VFG an) n) = true
           ∧ is_load_or_store (node_value (VFG an) n) = false)
   ∧ for_each (collect_uses_of an) st Defs
     = llvm_unreachable "use must be a load or store")
  ∨ ((∀ d n, d ∈ Defs → n ∈ visited_from (VFG an) (Def_Node d) →
             isInstrumentedDeref (node_value (VFG an) n) = true →
             is_load_or_store (node_value (VFG an) n) = true)
     ∧ ∃ st', for_each (collect_uses_of an) st Defs = Ok st'
        ∧ ∀ k m, m ∈ Use_Node <$> uses_of st'.1 k
            ↔ m ∈ Use_Node <$> uses_of st.1 k
              ∨ ∃ d, d ∈ Defs ∧ Def_Node k = Def_Node d
                     ∧ m ∈ visited_from (VFG an) (Def_Node d)
                     ∧ isInstrumentedDeref (node_value (VFG an) m) = true).
Proof.
  induction Defs as [|d Defs IH]; intros st; simpl.
  - right. split; [by intros d n ?%elem_of_nil|]. exists st. split; [done|].
    intros k m. split; [by left|]. intros [?|(d & ?%elem_of_nil & _)]; done.
  - change (collect_uses_of an st d)
      with (for_each (record_use an d) st
              (elements (visited_from (VFG an) (Def_Node d)))).
    destruct (for_each_record_use an d
                (elements (visited_from (VFG an) (Def_Node d))) st)
      as [[(n & Hn%elem_of_elements & Hp & Hls) ->]|[Hall (st1 & -> & Hst1)]]; simpl.
    + left. split; [|apply llvm_unreachable_bind].
      exists d, n. split; [by left|done].
    + destruct (IH st1) as [[(d' & n & Hd' & ?) ->]|[Hall' (st' & -> & Hst')]].
      * left. split; [|done]. exists d', n. split; [by right|done].
      * right. split.
        { intros d' n [->|Hd']%elem_of_cons Hn; [|by eapply Hall'].
          apply Hall. by apply elem_of_elements. }
        exists st'. split; [done|]. intros k m. rewrite Hst', Hst1. split.
        { intros [[?|(Hk & Hm%elem_of_elements & Hp)]|(d' & Hd' & ?)].
          - by left.
          - right. exists d. split; [by left|done].
          - right. exists d'. split; [by right|done]. }
        intros [?|(d' & [->|Hd']%elem_of_cons & Hk & Hm & Hp)].
        { by left; left. }
        { left; right. split; [done|]. split; [by apply elem_of_elements|done]. }
        right. by exists d'.
Qed.

(** ** The definition collector *)

Lemma collect_defs_untagged an s rest Defs0 :
  tagged_callee s = false →
  collect_defs an (s :: rest) Defs0 = collect_defs an rest Defs0.
Proof.
  unfold tagged_callee. simpl. destruct (getCallee s) as [F|]; [|done].
  by intros ->.
Qed.

Lemma collect_defs_tagged an s rest Defs0 :
  tagged_callee s = true →
  NDEBUG = true ∨ site_checked an s = true →
  collect_defs an (s :: rest) Defs0
  = collect_defs an rest (Defs0 ++ [def_of_site an s]).
Proof.
  unfold tagged_callee, site_checked. cbn [collect_defs].
  destruct (getCallee s) as [F|]; [|done]. intros -> Hc. unfold assert.
  destruct Hc as [Hc|[-> ->]%andb_true_iff]; [by rewrite Hc|].
  by destruct NDEBUG.
Qed.

Lemma collect_defs_assert_fails an s rest Defs0 :
  tagged_callee s = true → NDEBUG = false → site_checked an s = false →
  ∃ msg, collect_defs an (s :: rest) Defs0 = Halt (Abort msg).
Proof.
  unfold tagged_callee, site_checked. cbn [collect_defs].
  destruct (getCallee s) as [F|]; [|done]. intros -> Hnd Hc. unfold assert.
  rewrite Hnd.
  destruct (isTaggedAlloc (Some (getCallSite s))); [|simpl; by eexists].
  simpl in Hc. rewrite Hc. simpl. by eexists.
Qed.

Lemma collect_defs_ok an sites : ∀ Defs0 Defs,
  collect_defs an sites Defs0 = Ok Defs →
  Defs = Defs0 ++ (def_of_site an <$> filter (λ s, tagged_callee s = true) sites)
  ∧ (NDEBUG = false →
     ∀ s, s ∈ sites → tagged_callee s = true → site_checked an s = true).
Proof.
  induction sites as [|s sites IH]; intros Defs0 Defs.
  - simpl. intros [= <-]. rewrite app_nil_r. split; [done|].
    by intros _ s ?%elem_of_nil.
  - destruct (tagged_callee s) eqn:Ht.
    + destruct NDEBUG eqn:Hnd.
      * rewrite collect_defs_tagged by (done || by left).
        intros [-> _]%IH. split; [|done].
        rewrite filter_cons_True by done. by rewrite fmap_cons, <- app_assoc.
      * destruct (site_checked an s) eqn:Hc.
        -- rewrite collect_defs_tagged by (done || by right).
           intros [-> Hrest]%IH. split.
           { rewrite filter_cons_True by done. by rewrite fmap_cons, <- app_assoc. }
           intros _ s' [->|Hs']%elem_of_cons ?; [done|by apply Hrest].
        -- destruct (collect_defs_assert_fails an s sites Defs0) as [msg ->]; done.
    + rewrite collect_defs_untagged by done.
      intros [-> Hrest]%IH. split.
      { by rewrite filter_cons_False by congruence. }
      intros Hnd s' [->|Hs']%elem_of_cons ?; [congruence|by apply Hrest].
Qed.

Lemma collect_defs_abort an sites : ∀ Defs0 s,
  NDEBUG = false → s ∈ sites → tagged_callee s = true → site_checked an s = false →
  ∃ msg, collect_defs an sites Defs0 = Halt (Abort msg).
Proof.
  induction sites as [|x sites IH]; intros Defs0 s Hnd Hs Ht Hc.
  - by apply elem_of_nil in Hs.
  - destruct (tagged_callee x) eqn:Htx.
    + destruct (site_checked an x) eqn:Hcx.
      * rewrite collect_defs_tagged by (done || by right).
        apply elem_of_cons in Hs as [->|Hs]; [congruence|by eapply IH].
      * by apply collect_defs_assert_fails.
    + rewrite collect_defs_untagged by done.
      apply elem_of_cons in Hs as [->|Hs]; [congruence|by eapply IH].
Qed.

Lemma collect_defs_skip_unresolved an pre s post : ∀ Defs0,
  getCallee s = None →
  collect_defs an (pre ++ s :: post) Defs0 = collect_defs an (pre ++ post) Defs0.
Proof.
  induction pre as [|x pre IH]; intros Defs0 Hs; simpl.
  - by rewrite Hs.
  - destruct (getCallee x) as [F|]; [|by apply IH].
    destruct (is_tagged_name (Function_getName F)); [|by apply IH].
    destruct (assert _ _); simpl; [|done].
    destruct (assert _ _); simpl; [|done]. by apply IH.
Qed.

Lemma is_tagged_name_spec name :
  is_tagged_name name = true
  ↔ name = "__tagged_malloc" ∨ name = "__tagged_calloc" ∨ name = "__tagged_realloc".
Proof.
  unfold is_tagged_name, kTaggedMalloc, kTaggedCalloc, kTaggedRealloc.
  rewrite !orb_true_iff, !String.eqb_eq. tauto.
Qed.

Lemma collect_defs_no_tagged_site an sites : ∀ Defs0,
  (∀ s, s ∈ sites → tagged_callee s = false) →
  collect_defs an sites Defs0 = Ok Defs0.
Proof.
  induction sites as [|x sites IH]; intros Defs0 Hall; [done|].
  rewrite collect_defs_untagged by (apply Hall; by left).
  apply IH. intros s Hs. apply Hall. by right.
Qed.

(** ** [main] around the two collectors *)

Lemma main_collect_defs_halt inp an w s :
  parseIRFile inp = inr an →
  collect_defs an (getCallSiteSet an) [] = Halt s →
  main inp w = (log_collecting inp w, Halt s).
Proof.
  intros Hp Hd. unfold main. rewrite Hp.
  unfold mbind, M_bind, status_stream, lift, log_collecting. simpl. rewrite Hd.
  by rewrite <- !app_assoc.
Qed.

Lemma main_no_defs inp an w :
  parseIRFile inp = inr an →
  collect_defs an (getCallSiteSet an) [] = Ok [] →
  main inp w
  = ({| outs := outs (log_collecting inp w);
        errs := errs w ++ ["[!] " +:+ ("Failed to collect any def sites" +:+ nl)];
        files := files w; dash := dash w |}, Halt (Exit 1)).
Proof.
  intros Hp Hd. unfold main. rewrite Hp.
  unfold mbind, M_bind, status_stream, error_stream, exit, lift, log_collecting.
  simpl. rewrite Hd. simpl. by rewrite <- !app_assoc.
Qed.

Lemma main_collect_uses_halt inp an w Defs s :
  parseIRFile inp = inr an →
  collect_defs an (getCallSiteSet an) [] = Ok Defs → Defs ≠ [] →
  collect_uses an Defs = Halt s →
  ∃ w', main inp w = (w', Halt s) ∧ files w' = files w ∧ errs w' = errs w.
Proof.
  intros Hp Hd Hne Hu. unfold main. rewrite Hp.
  unfold mbind, M_bind, status_stream, success_stream, error_stream, exit, lift.
  simpl. rewrite Hd. simpl. rewrite bool_decide_eq_false_2 by done.
  simpl. rewrite Hu. by eexists.
Qed.

(** ** Rendering *)

Lemma optional_string_json o : optional_string (json_of_string o).
Proof. destruct o as [s|]; [right; by exists s|by left]. Qed.

Lemma optional_unsigned_json o : optional_unsigned (json_of_unsigned o).
Proof. destruct o as [n|]; [right; by exists n|by left]. Qed.

(** ** The claims *)

(** C1.  When the use collection completes, the use set stored for a
    definition holds exactly the nodes that one or more dataflow edges lead
    to from the definition's node and whose value passes the
    instrumented-dereference predicate.  In particular a node reached through
    an intermediate node is in the set whatever the intermediate node is, and
    a node that fails the predicate is not. *)
Theorem C1_use_set_exact an Defs DefUseChains NumUses d n :
  collect_uses an Defs = Ok (DefUseChains, NumUses) →
  d ∈ Defs →
  ((∃ u, u ∈ uses_of DefUseChains d ∧ Use_Node u = n)
   ↔ tc (edge (VFG an)) (Def_Node d) n
     ∧ isInstrumentedDeref (node_value (VFG an) n) = true)
  ∧ (∀ X, edge (VFG an) (Def_Node d) X → edge (VFG an) X n →
          isInstrumentedDeref (node_value (VFG an) n) = true →
          ∃ u, u ∈ uses_of DefUseChains d ∧ Use_Node u = n)
  ∧ (isInstrumentedDeref (node_value (VFG an) n) = false →
     ¬ ∃ u, u ∈ uses_of DefUseChains d ∧ Use_Node u = n).
Proof.
  intros Hrun Hd. unfold collect_uses in Hrun.
  destruct (for_each_collect_uses an Defs ([], 0)) as [[_ Hbad]|[_ (st' & Hok & Hst')]].
  { rewrite Hrun in Hbad. unfold llvm_unreachable in Hbad. by destruct NDEBUG. }
  rewrite Hrun in Hok. injection Hok as <-. simpl in Hst'.
  assert ((∃ u, u ∈ uses_of DefUseChains d ∧ Use_Node u = n)
          ↔ tc (edge (VFG an)) (Def_Node d) n
            ∧ isInstrumentedDeref (node_value (VFG an) n) = true) as Hiff.
  { transitivity (n ∈ Use_Node <$> uses_of DefUseChains d).
    { rewrite list_elem_of_fmap. naive_solver. }
    rewrite Hst'. split.
    - intros [?%elem_of_nil|(d' & _ & Hk & Hv & Hp)]; [done|].
      split; [|done]. rewrite Hk. by apply visited_from_spec.
    - intros [Hr Hp]. right. exists d. split; [done|]. split; [done|].
      split; [|done]. by apply visited_from_spec. }
  split; [exact Hiff|]. split.
  - intros X HX Hn Hp. apply Hiff. split; [|done].
    eapply tc_l; [exact HX|]. by apply tc_once.
  - intros Hp [Hr Hp']%Hiff. congruence.
Qed.



(** C3 (amended).  In a build with assertions ([NDEBUG] not defined), a node
    that is visited from some definition, passes the
    instrumented-dereference predicate and is neither a load nor a store
    makes the loop body, the use collection and [main] stop with the fatal
    abort of [llvm_unreachable]; the node is not skipped, no use is recorded
    for it and no file is written. *)
Theorem C3_unexpected_use_aborts an Defs d n :
  NDEBUG = false →
  d ∈ Defs →
  tc (edge (VFG an)) (Def_Node d) n →
  isInstrumentedDeref (node_value (VFG an) n) = true →
  is_load_or_store (node_value (VFG an) n) = false →
  (∀ d' st, record_use an d' st n = Halt (Abort "use must be a load or store"))
  ∧ collect_uses an Defs = Halt (Abort "use must be a load or store")
  ∧ (∀ inp w, parseIRFile inp = inr an →
       collect_defs an (getCallSiteSet an) [] = Ok Defs →
       ∃ w', main inp w = (w', Halt (Abort "use must be a load or store"))
             ∧ files w' = files w).
Proof.
  intros Hnd Hd Hr Hp Hls.
  assert (∀ A, @llvm_unreachable A "use must be a load or store"
               = Halt (Abort "use must be a load or store")) as Hun.
  { intros A. unfold llvm_unreachable. by rewrite Hnd. }
  assert (collect_uses an Defs = Halt (Abort "use must be a load or store")) as Hcu.
  { unfold collect_uses.
    destruct (for_each_collect_uses an Defs ([], 0)) as [[_ ->]|[Hall _]]; [apply Hun|].
    rewrite (Hall d n) in Hls; [done|done| |done]. by apply visited_from_spec. }
  split; [|split; [exact Hcu|]].
  - intros d' st. rewrite record_use_unreachable by done. apply Hun.
  - intros inp w Hparse Hdefs.
    destruct (main_collect_uses_halt inp an w Defs
                (Abort "use must be a load or store") Hparse Hdefs)
      as (w' & ? & ? & _); [|exact Hcu|by exists w'].
    intros ->. by apply elem_of_nil in Hd.
Qed.

(** C4 (amended).  In a build with assertions ([NDEBUG] not defined), every
    call site whose callee bears one of the three names and which the
    collector gets past carries the tagged-allocation annotation and has a
    callee classified as allocating or reallocating; when either fails, the
    collector and [main] stop with a fatal abort, before any definition is
    used and before anything is written. *)
Theorem C4_definition_sites_checked an s F :
  NDEBUG = false →
  s ∈ getCallSiteSet an →
  getCallee s = Some F →
  is_tagged_name (Function_getName F) = true →
  (∀ Defs, collect_defs an (getCallSiteSet an) [] = Ok Defs →
     isTaggedAlloc (Some (getCallSite s)) = true
     ∧ (is_alloc (Externals an) F = true ∨ is_realloc (Externals an) F = true))
  ∧ (isTaggedAlloc (Some (getCallSite s)) = false
     ∨ (is_alloc (Externals an) F = false ∧ is_realloc (Externals an) F = false) →
     ∃ msg, collect_defs an (getCallSiteSet an) [] = Halt (Abort msg)
       ∧ ∀ inp w, parseIRFile inp = inr an →
           main inp w = (log_collecting inp w, Halt (Abort msg))).
Proof.
  intros Hnd Hs HF Hname.
  assert (tagged_callee s = true) as Ht by (unfold tagged_callee; by rewrite HF).
  split.
  - intros Defs [_ Hchk]%collect_defs_ok.
    specialize (Hchk Hnd s Hs Ht). unfold site_checked in Hchk. rewrite HF in Hchk.
    apply andb_true_iff in Hchk as [-> Hc%orb_true_iff]. done.
  - intros Hfail.
    assert (site_checked an s = false) as Hc.
    { unfold site_checked. rewrite HF. apply andb_false_iff.
      destruct Hfail as [->|[-> ->]]; [by left|by right]. }
    destruct (collect_defs_abort an (getCallSiteSet an) [] s Hnd Hs Ht Hc) as [msg Hmsg].
    exists msg. split; [done|]. intros inp w Hparse.
    by apply (main_collect_defs_halt inp an).
Qed.

(** C5.  When the definition collector returns no definition, [main] prints
    the diagnostic on the error stream and exits with status 1; nothing is
    written to any file, and the standard output stops at the announcement of
    the definition collection: neither the traversal nor the serialisation
    starts. *)
Theorem C5_no_definitions_exit inp an w :
  parseIRFile inp = inr an →
  collect_defs an (getCallSiteSet an) [] = Ok [] →
  ∃ w', main inp w = (w', Halt (Exit 1))
    ∧ errs w' = errs w ++ ["[!] Failed to collect any def sites" +:+ nl]
    ∧ files w' = files w
    ∧ outs w' = outs (log_collecting inp w).
Proof.
  intros Hparse Hdefs. rewrite (main_no_defs inp an w Hparse Hdefs).
  eexists. split; [reflexivity|]. done.
Qed.

(** C6 (amended).  On every graph the traversal halts within the fuel [main]
    gives it.  The root is popped first; after it every visited node is
    popped exactly once, so that a node other than the root is never popped
    twice and the root is popped a second time exactly when a cycle leads
    back to it.  The visited set is never larger than the set of nodes of the
    graph. *)
Theorem C6_traversal_halts g root :
  ∃ Visited Popped,
    traverse_from g root = Some (Visited, root :: Popped)
    ∧ NoDup Popped
    ∧ list_to_set Popped = Visited
    ∧ (size Visited ≤ size (graph_nodes g))%nat
    ∧ (root ∈ Popped ↔ tc (edge g) root root).
Proof.
  destruct (traverse_from_spec g root) as (V & P' & Heq & Hnd & Hset & HU & HV).
  exists V, P'. split; [done|]. split; [done|]. split; [done|].
  split; [by apply subseteq_size|].
  rewrite <- HV, <- Hset. by rewrite elem_of_list_to_set.
Qed.

(** C7.  Equality and hash of definitions and of uses look at the node only:
    records on the same node are equal and have the same hash whatever their
    variables are.  Inserting a (definition, use) pair into the chain store a
    second time, even with other variables attached, leaves the store as it
    was, and with it the size of the stored use set. *)
Theorem C7_identity_is_the_node (d d' : Def) (u u' : Use) (c : Chains) :
  Def_Node d' = Def_Node d →
  Use_Node u' = Use_Node u →
  key_eq d' d = true ∧ key_hash d' = key_hash d
  ∧ key_eq u' u = true ∧ key_hash u' = key_hash u
  ∧ (∀ a b : Def, key_eq a b = true ↔ Def_Node a = Def_Node b)
  ∧ (∀ a b : Use, key_eq a b = true ↔ Use_Node a = Use_Node b)
  ∧ chain_insert d' u' (chain_insert d u c) = chain_insert d u c
  ∧ length (uses_of (chain_insert d' u' (chain_insert d u c)) d)
    = length (uses_of (chain_insert d u c) d).
Proof.
  intros Hd Hu. simpl. unfold Def_eq, Use_eq.
  rewrite Hd, Hu, !Pos.eqb_refl. repeat split; try done.
  - by intros ?%Pos.eqb_eq.
  - by intros ->%Pos.eqb_eq.
  - by intros ?%Pos.eqb_eq.
  - by intros ->%Pos.eqb_eq.
  - by apply chain_insert_again.
  - by rewrite chain_insert_again.
Qed.

(** C8 (amended).  A definition that renders, renders as a pair of its name
    and three positional optional fields, file, function and line, the file
    being present whenever the definition has a variable.  A use renders as a
    pair of its name and three positional fields as well: the first, where a
    definition has its file, is always null, the second and third are the
    optional function and line. *)
Theorem C8_rendering_positions (d : Def) (u : Use) (j : json) :
  toJSON_Def d = Ok j →
  (∃ name file func line,
      j = JArray [JString name; JArray [file; func; line]]
      ∧ optional_string file ∧ optional_string func ∧ optional_unsigned line
      ∧ (∀ Var, Def_Var d = Some Var → file = JString (DIVariable_getFile Var)))
  ∧ (∃ name func line,
      toJSON_Use u = JArray [JString name; JArray [JNull; func; line]]
      ∧ optional_string func ∧ optional_unsigned line).
Proof.
  intros Hj. split.
  - unfold toJSON_Def in Hj.
    destruct (Def_Var d) as [Var|] eqn:EVar; simpl in Hj.
    + destruct (match Var with
                | {| DIVariable_kind := DILocalVariable sp |} => Ok (Some sp)
                | _ => match Def_Val d with
                       | Some Val => Ok (getParentName <$> asInstruction Val)
                       | None => failed_assertion "isa<> used on a null pointer"
                       end
                end) as [func|] eqn:EF; simpl in Hj; [|done].
      injection Hj as <-. eexists _, _, _, _. split; [reflexivity|].
      split; [right; by eexists|]. split; [apply optional_string_json|].
      split; [right; by eexists|]. by intros ? [= <-].
    + destruct (Def_Val d) as [Val|]; simpl in Hj; [|done].
      injection Hj as <-. eexists _, _, _, _. split; [reflexivity|].
      split; [by left|]. split; [apply optional_string_json|].
      split; [by left|]. done.
  - unfold toJSON_Use. eexists _, _, _. split; [reflexivity|].
    split; [apply optional_string_json|apply optional_unsigned_json].
Qed.

(** C9 (amended).  A definition without a variable but with a value, and a
    use with neither a variable nor a debug location, render without failing
    as the printed value for a name, no file, the name of the containing
    block for a function when the value is an instruction, and no line.  A
    use without a variable but with a debug location keeps the printed value
    for a name and takes function and line from that location.  The name is
    not empty as long as the printer never prints an empty text. *)
Theorem C9_rendering_without_variable (d : Def) (v : Value) (u : Use) :
  (∀ x, print x ≠ "") →
  Def_Var d = None → Def_Val d = Some v →
  Use_Var u = None →
  toJSON_Def d = Ok (fallback_rendering v)
  ∧ (Use_Loc u = None → toJSON_Use u = fallback_rendering (Use_Val u))
  ∧ (∀ Loc, Use_Loc u = Some Loc →
       toJSON_Use u
       = JArray [JString (print (Use_Val u));
                 JArray [JNull; JString (DILocation_getSubprogram Loc);
                         JNumber (DILocation_getLine Loc)]])
  ∧ (∃ name rest, fallback_rendering v = JArray [JString name; rest] ∧ name ≠ "")
  ∧ (∃ name rest, toJSON_Use u = JArray [JString name; rest] ∧ name ≠ "").
Proof.
  intros Hprint HVar HVal HUVar. split; [|split; [|split; [|split]]].
  - unfold toJSON_Def, fallback_rendering. by rewrite HVar, HVal.
  - intros HLoc. unfold toJSON_Use, fallback_rendering. by rewrite HUVar, HLoc.
  - intros Loc HLoc. unfold toJSON_Use. by rewrite HUVar, HLoc.
  - eexists _, _. split; [reflexivity|apply Hprint].
  - unfold toJSON_Use. rewrite HUVar. eexists _, _. split; [reflexivity|apply Hprint].
Qed.

(** C10.  A call site whose callee is not resolved is skipped without a
    trace: the collector does, errors included, what it does on the same
    call sites without it.  The definitions it returns are those of the call
    sites, in order, whose callee is resolved and is named exactly
    [__tagged_malloc], [__tagged_calloc] or [__tagged_realloc]. *)
Theorem C10_unresolved_callee_skipped an pre s post Defs0 :
  getCallee s = None →
  collect_defs an (pre ++ s :: post) Defs0 = collect_defs an (pre ++ post) Defs0
  ∧ (∀ Defs, collect_defs an (pre ++ s :: post) [] = Ok Defs →
       Defs = def_of_site an <$> filter (λ x, tagged_callee x = true) (pre ++ post))
  ∧ (∀ x, tagged_callee x = true
          ↔ ∃ F, getCallee x = Some F
                 ∧ (Function_getName F = "__tagged_malloc"
                    ∨ Function_getName F = "__tagged_calloc"
                    ∨ Function_getName F = "__tagged_realloc")).
Proof.
  intros Hs. split; [by apply collect_defs_skip_unresolved|]. split.
  - intros Defs. rewrite collect_defs_skip_unresolved by done.
    by intros [-> _]%collect_defs_ok.
  - intros x. unfold tagged_callee. destruct (getCallee x) as [F|].
    + rewrite is_tagged_name_spec. split; [by exists F|]. by intros (? & [= <-] & ?).
    + split; [done|]. by intros (? & ? & _).
Qed.

(** ** Further properties of the helper functions and of the rendering *)

Lemma annotated_iff (Inst : Instruction) (Kind : string) :
  hasMetadata Inst && getMetadata Inst Kind = true ↔ Kind ∈ metadata Inst.
Proof.
  unfold hasMetadata, getMetadata. rewrite andb_true_iff, bool_decide_eq_true.
  split; [by intros [_ ?]|]. intros Hin. split; [|done].
  destruct (getDebugLoc Inst); [done|].
  destruct (metadata Inst); [by apply elem_of_nil in Hin|done].
Qed.

Lemma isInstrumentedDeref_true V :
  isInstrumentedDeref V = true →
  ∃ v Inst, V = Some v ∧ asInstruction v = Some Inst
            ∧ kFuzzallocInstrumentedDerefMD ∈ metadata Inst.
Proof.
  unfold isInstrumentedDeref. destruct V as [v|]; [|done].
  destruct (asInstruction v) as [Inst|] eqn:E; [|done].
  intros ?%annotated_iff. by exists v, Inst.
Qed.

(** X5.  The two predicates hold exactly for a non-null value that is an
    instruction and has the metadata kind attached; the test [hasMetadata()]
    changes nothing.  A null value and a value that is no instruction are
    never a tagged allocation nor an instrumented dereference. *)
Theorem X5_annotation_predicates (V : option Value) :
  (isTaggedAlloc V = true
   ↔ ∃ v Inst, V = Some v ∧ asInstruction v = Some Inst
               ∧ kFuzzallocTaggedAllocMD ∈ metadata Inst)
  ∧ (isInstrumentedDeref V = true
     ↔ ∃ v Inst, V = Some v ∧ asInstruction v = Some Inst
                 ∧ kFuzzallocInstrumentedDerefMD ∈ metadata Inst).
Proof.
  unfold isTaggedAlloc, isInstrumentedDeref.
  destruct V as [v|]; [|split; (split; [done|by intros (? & ? & ? & _)])].
  destruct (asInstruction v) as [Inst|] eqn:E;
    [|split; (split; [done|by intros (? & ? & [= <-] & ? & _); congruence])].
  rewrite !annotated_iff. split.
  - split; [intros ?; by exists v, Inst|].
    intros (v' & Inst' & [= <-] & HI & ?). congruence.
  - split; [intros ?; by exists v, Inst|].
    intros (v' & Inst' & [= <-] & HI & ?). congruence.
Qed.

Lemma toJSON_Def_Ok_iff (d : Def) :
  (∃ j, toJSON_Def d = Ok j)
  ↔ is_Some (Def_Val d)
    ∨ ∃ Var sp, Def_Var d = Some Var ∧ DIVariable_kind Var = DILocalVariable sp.
Proof.
  unfold toJSON_Def, failed_assertion.
  destruct (Def_Var d) as [[name file line [sp|]]|], (Def_Val d) as [v|]; simpl.
  - split; [by left|by eexists].
  - split; [right; by eexists _, _|by eexists].
  - split; [by left|by eexists].
  - split.
    + intros [j Hj]. by destruct NDEBUG.
    + intros [[? [=]]|(? & ? & [= <-] & [=])].
  - split; [by left|by eexists].
  - split; [by intros [? [=]]|]. intros [[? [=]]|(? & ? & [=] & _)].
Qed.

(** X6.  A definition renders exactly when its value is not null or its
    variable is a local variable: only then is the printer or [dyn_cast]
    never applied to a null value. *)
Theorem X6_toJSON_Def_defined (d : Def) :
  (∃ j, toJSON_Def d = Ok j)
  ↔ is_Some (Def_Val d)
    ∨ ∃ Var sp, Def_Var d = Some Var ∧ DIVariable_kind Var = DILocalVariable sp.
Proof. apply toJSON_Def_Ok_iff. Qed.

(** X7.  A definition with a variable renders the name, the file and the
    line of the variable.  For a local variable the function is the
    subprogram of the variable, even when the value is null; for any other
    variable it is the name of the block of the value when the value is an
    instruction, and null when it is not. *)
Theorem X7_toJSON_Def_with_variable (d : Def) (Var : DIVariable) :
  Def_Var d = Some Var →
  (∀ sp, DIVariable_kind Var = DILocalVariable sp →
     toJSON_Def d
     = Ok (JArray [JString (DIVariable_getName Var);
                   JArray [JString (DIVariable_getFile Var); JString sp;
                           JNumber (DIVariable_getLine Var)]]))
  ∧ (∀ v, DIVariable_kind Var = DIGlobalVariable → Def_Val d = Some v →
       toJSON_Def d
       = Ok (JArray [JString (DIVariable_getName Var);
                     JArray [JString (DIVariable_getFile Var);
                             json_of_string (getParentName <$> asInstruction v);
                             JNumber (DIVariable_getLine Var)]])).
Proof.
  intros HVar. unfold toJSON_Def. rewrite HVar.
  destruct Var as [name file line kind]. simpl. split.
  - by intros sp ->.
  - intros v -> ->. done.
Qed.

(** ** Further properties of [main] *)

Lemma main_parse_halt inp Err w :
  parseIRFile inp = inl Err →
  main inp w
  = ({| outs := outs w ++ ["[*] Parsing " +:+ BCFilename inp +:+ "..." +:+ nl];
        errs := errs w
                ++ ["[!] Failed to parse `" +:+ BCFilename inp +:+ "`: " +:+ Err +:+ nl];
        files := files w; dash := dash w |}, Halt (Exit 1)).
Proof.
  intros Hp. unfold main. rewrite Hp.
  unfold mbind, M_bind, status_stream, error_stream, exit, lift. done.
Qed.

(** X8.  When the bitcode file does not parse, [main] reports the parser's
    message on the error stream and exits with status 1, having announced
    only the parsing; no file is written. *)
Theorem X8_main_parse_failure inp Err w :
  parseIRFile inp = inl Err →
  main inp w
  = ({| outs := outs w ++ ["[*] Parsing " +:+ BCFilename inp +:+ "..." +:+ nl];
        errs := errs w
                ++ ["[!] Failed to parse `" +:+ BCFilename inp +:+ "`: " +:+ Err +:+ nl];
        files := files w; dash := dash w |}, Halt (Exit 1)).
Proof. apply main_parse_halt. Qed.

(** [main] once both collectors have returned: what is left is the saving of
    the output, in a world whose files and error stream are untouched. *)
Lemma main_collected inp an w Defs r :
  parseIRFile inp = inr an →
  collect_defs an (getCallSiteSet an) [] = Ok Defs → Defs ≠ [] →
  collect_uses an Defs = Ok r →
  ∃ w1, main inp w = (save_output inp r.1 ≫= λ _, mret 0%Z) w1
        ∧ files w1 = files w ∧ errs w1 = errs w ∧ dash w1 = dash w.
Proof.
  intros Hp Hd Hne Hu. unfold main. rewrite Hp.
  unfold mbind at 1 2 3 4 5 6 7 8. unfold M_bind at 1 2 3 4 5 6 7 8.
  unfold status_stream, success_stream, lift.
  simpl. rewrite Hd. simpl. rewrite bool_decide_eq_false_2 by done.
  simpl. rewrite Hu. eexists. split; [reflexivity|]. done.
Qed.

Lemma raw_fd_ostream_cases path j w :
  (path = "-"
   ∧ raw_fd_ostream path j w
     = ({| outs := outs w; errs := errs w; files := files w;
           dash := dash w ++ [j] |}, Ok ()))
  ∨ (path ≠ "-"
     ∧ raw_fd_ostream path j w
       = ({| outs := outs w; errs := errs w; files := <[path := j]> (files w);
             dash := dash w |}, Ok ())).
Proof.
  unfold raw_fd_ostream. destruct (path =? "-")%string eqn:E.
  - left. by apply String.eqb_eq in E.
  - right. by apply String.eqb_neq in E.
Qed.

(** The saving of the output, case by case. *)
Lemma save_output_cases inp c w :
  (OutJSON inp = "" ∧ save_output inp c w = (w, Ok ()))
  ∨ (OutJSON inp ≠ ""
     ∧ ∃ w1, outs w1 = outs w ++ ["[*] Serializing def/use chains to JSON..." +:+ nl]
        ∧ errs w1 = errs w ∧ files w1 = files w
        ∧ ((∃ s, chains_toJSON c = Halt s ∧ save_output inp c w = (w1, Halt s))
           ∨ (∃ J, chains_toJSON c = Ok J ∧ open_error inp = true
                ∧ save_output inp c w
                  = ({| outs := outs w1;
                        errs := errs w ++ ["[!] Unable to open " +:+ OutJSON inp +:+ nl];
                        files := files w; dash := dash w |}, Halt (Exit 1)))
           ∨ (∃ J w2, chains_toJSON c = Ok J ∧ open_error inp = false
                ∧ save_output inp c w = (w2, Ok ())
                ∧ errs w2 = errs w
                ∧ if decide (OutJSON inp = "-")
                  then files w2 = files w
                       ∧ dash w2 = dash w ++ [JArray [JArray J]]
                  else files w2 = <[OutJSON inp := JArray [JArray J]]> (files w)
                       ∧ dash w2 = dash w))).
Proof.
  unfold save_output. destruct (OutJSON inp =? "")%string eqn:E.
  - left. by apply String.eqb_eq in E.
  - right. apply String.eqb_neq in E. split; [done|].
    unfold mbind, M_bind, status_stream, error_stream, exit, lift. simpl.
    exists {| outs := outs w ++ ["[*] Serializing def/use chains to JSON..." +:+ nl];
              errs := errs w; files := files w; dash := dash w |}.
    split; [reflexivity|]. split; [reflexivity|]. split; [reflexivity|].
    destruct (chains_toJSON c) as [J|s]; [|left; by exists s].
    right. destruct (open_error inp); [left; by exists J|right].
    simpl. exists J.
    match goal with
    | |- context [raw_fd_ostream ?path ?j ?w0] =>
        destruct (raw_fd_ostream_cases path j w0) as [[Hd ->]|[Hd ->]]
    end; eexists; (split; [done|]); (split; [done|]);
      (split; [reflexivity|]); simpl; (split; [done|]).
    + by rewrite decide_True.
    + by rewrite decide_False.
Qed.


(** The serialiser renders the entries of the store one by one. *)
Lemma chains_toJSON_Ok c : ∀ J,
  chains_toJSON c = Ok J →
  Forall2 (λ entry j, ∃ dj, toJSON_Def entry.1 = Ok dj
                            ∧ j = JArray [dj; JArray (toJSON_Use <$> entry.2)]) c J.
Proof.
  induction c as [|entry c IH]; intros J; simpl.
  - intros [= <-]. constructor.
  - unfold chain_toJSON.
    destruct (toJSON_Def entry.1) as [dj|] eqn:Ed; simpl; [|done].
    destruct (chains_toJSON c) as [J'|]; simpl; [|done].
    intros [= <-]. constructor; [by exists dj|by apply IH].
Qed.


Lemma chains_toJSON_Halt c : ∀ s,
  chains_toJSON c = Halt s → ∃ entry, entry ∈ c ∧ toJSON_Def entry.1 = Halt s.
Proof.
  induction c as [|entry c IH]; intros s; simpl; [done|].
  unfold chain_toJSON.
  destruct (toJSON_Def entry.1) as [dj|s'] eqn:Ed; simpl.
  - destruct (chains_toJSON c) as [J'|s'']; simpl; [done|].
    intros [= <-]. destruct (IH s'' eq_refl) as (e & He & ?).
    exists e. split; [by right|done].
  - intros [= <-]. exists entry. split; [by left|done].
Qed.

(** [main] on every input: where it stops, or how the output is saved. *)
Lemma main_files inp w :
  ((main inp w).2 ≠ Ok 0%Z ∧ files (main inp w).1 = files w)
  ∨ ((main inp w).2 = Ok 0%Z
     ∧ ((OutJSON inp = "" ∨ OutJSON inp = "-") ∧ files (main inp w).1 = files w
        ∨ OutJSON inp ≠ "" ∧ OutJSON inp ≠ "-"
          ∧ ∃ J, files (main inp w).1
                 = <[OutJSON inp := JArray [JArray J]]> (files w))).
Proof.
  destruct (parseIRFile inp) as [Err|an] eqn:Hp.
  { left. by rewrite (main_parse_halt inp Err w Hp). }
  destruct (collect_defs an (getCallSiteSet an) []) as [Defs|s] eqn:Hd.
  2: { left. by rewrite (main_collect_defs_halt inp an w s Hp Hd). }
  destruct Defs as [|d0 Defs].
  { left. by rewrite (main_no_defs inp an w Hp Hd). }
  destruct (collect_uses an (d0 :: Defs)) as [r|s] eqn:Hu.
  2: { left. destruct (main_collect_uses_halt inp an w _ s Hp Hd ltac:(done) Hu)
         as (w' & -> & ? & _). done. }
  destruct (main_collected inp an w _ r Hp Hd ltac:(done) Hu) as (w1 & -> & Hf & He & _).
  unfold mbind, M_bind.
  destruct (save_output_cases inp r.1 w1)
    as [[Hout ->]|(Hne & w2 & _ & _ & Hf2 &
                [(s & _ & ->)|[(J & _ & _ & ->)|(J & w3 & _ & _ & -> & _ & Hw3)]])];
    simpl.
  - right. split; [done|]. left. split; [by left|done].
  - left. split; [done|congruence].
  - left. split; [done|congruence].
  - right. split; [done|]. destruct (decide (OutJSON inp = "-")) as [Hd'|Hd'].
    + left. split; [by right|]. destruct Hw3 as [Hf3 _]. by rewrite Hf3.
    + right. split; [done|]. split; [done|]. exists J.
      destruct Hw3 as [Hf3 _]. by rewrite Hf3, Hf.
Qed.

(** X9.  [main] changes the files in one case only: when it returns 0 and
    the output path is neither empty nor ["-"], the file at that path holds
    an array wrapping the array of chain entries, and every other file is as
    it was.  In every other case (the run stops early, no output path is
    given, or the path is ["-"], which names the standard output) the files
    are left as they were. *)
Theorem X9_main_writes_only_the_output inp w :
  ((main inp w).2 = Ok 0%Z → OutJSON inp ≠ "" → OutJSON inp ≠ "-" →
   ∃ J, files (main inp w).1 = <[OutJSON inp := JArray [JArray J]]> (files w))
  ∧ ((main inp w).2 ≠ Ok 0%Z ∨ OutJSON inp = "" ∨ OutJSON inp = "-" →
     files (main inp w).1 = files w).
Proof.
  destruct (main_files inp w)
    as [[Hr Hf]|[Hr [[Hout Hf]|(Hne & Hnd & J & Hf)]]]; split.
  - intros Hr'. by destruct Hr.
  - done.
  - intros _ Hne Hnd. by destruct Hout.
  - done.
  - intros _ _ _. by exists J.
  - intros [?|[?|?]]; done.
Qed.


(** X11.  When the output path cannot be opened, a run that has collected
    and rendered its chains reports "Unable to open" with the path on the
    error stream and exits with status 1; no file is written. *)
Theorem X11_main_unwritable_output inp an w Defs c NumUses J :
  parseIRFile inp = inr an →
  collect_defs an (getCallSiteSet an) [] = Ok Defs → Defs ≠ [] →
  collect_uses an Defs = Ok (c, NumUses) →
  OutJSON inp ≠ "" → chains_toJSON c = Ok J → open_error inp = true →
  ∃ w', main inp w = (w', Halt (Exit 1))
    ∧ files w' = files w
    ∧ errs w' = errs w ++ ["[!] Unable to open " +:+ OutJSON inp +:+ nl].
Proof.
  intros Hp Hd Hne Hu Hout HJ Hopen.
  destruct (main_collected inp an w _ _ Hp Hd Hne Hu) as (w1 & -> & Hf & He & _).
  unfold mbind, M_bind. simpl.
  destruct (save_output_cases inp c w1)
    as [[? _]|(_ & w2 & _ & _ & _ &
               [(s & ? & _)|[(J' & _ & _ & ->)|(J' & w3 & _ & ? & _)]])];
    try congruence.
  eexists. split; [reflexivity|]. simpl. by rewrite Hf, He.
Qed.

(** X12.  Without an output path, a run that has collected its chains
    returns 0 without rendering them: no file is written and nothing goes to
    the error stream, even where a definition of the store has no
    rendering. *)
Theorem X12_main_without_output_path inp an w Defs c NumUses :
  parseIRFile inp = inr an →
  collect_defs an (getCallSiteSet an) [] = Ok Defs → Defs ≠ [] →
  collect_uses an Defs = Ok (c, NumUses) →
  OutJSON inp = "" →
  ∃ w', main inp w = (w', Ok 0%Z) ∧ files w' = files w ∧ errs w' = errs w.
Proof.
  intros Hp Hd Hne Hu Hout.
  destruct (main_collected inp an w _ _ Hp Hd Hne Hu) as (w1 & -> & Hf & He & _).
  unfold mbind, M_bind. simpl.
  destruct (save_output_cases inp c w1) as [[_ ->]|[? _]]; [|done].
  by exists w1.
Qed.

(** X13.  The rendering of the store fails exactly when one of its
    definitions has a null value and no local variable; [main] then stops,
    with an output path given, before the path is opened, and writes no
    file. *)
Theorem X13_main_rendering_failure inp an w Defs c NumUses :
  parseIRFile inp = inr an →
  collect_defs an (getCallSiteSet an) [] = Ok Defs → Defs ≠ [] →
  collect_uses an Defs = Ok (c, NumUses) →
  OutJSON inp ≠ "" →
  ((∃ s, chains_toJSON c = Halt s)
   ↔ ∃ entry, entry ∈ c ∧ Def_Val entry.1 = None
       ∧ ∀ Var sp, Def_Var entry.1 = Some Var → DIVariable_kind Var ≠ DILocalVariable sp)
  ∧ (∀ s, chains_toJSON c = Halt s →
       ∃ w', main inp w = (w', Halt s) ∧ files w' = files w ∧ errs w' = errs w).
Proof.
  intros Hp Hd Hne Hu Hout. split.
  - split.
    + intros [s (entry & Hin & Hs)%chains_toJSON_Halt]. exists entry. split; [done|].
      destruct (Def_Val entry.1) as [v|] eqn:Ev.
      { destruct (proj2 (toJSON_Def_Ok_iff entry.1)) as [j Hj]; [left; by rewrite Ev|].
        congruence. }
      split; [done|]. intros Var sp HVar Hk.
      destruct (proj2 (toJSON_Def_Ok_iff entry.1)) as [j Hj]; [right; by exists Var, sp|].
      congruence.
    + intros (entry & Hin & Hv & Hnl).
      destruct (chains_toJSON c) as [J|s] eqn:HJ; [|by exists s].
      apply chains_toJSON_Ok in HJ.
      apply list_elem_of_lookup in Hin as [i Hi].
      destruct (Forall2_lookup_l _ _ _ _ _ HJ Hi) as (j & _ & dj & Hdj & _).
      destruct (proj1 (toJSON_Def_Ok_iff entry.1)) as [[v Hv']|(Var & sp & HVar & Hk)];
        [by exists dj|congruence|].
      by destruct (Hnl Var sp HVar).
  - intros s Hs.
    destruct (main_collected inp an w _ _ Hp Hd Hne Hu) as (w1 & -> & Hf & He & _).
    unfold mbind, M_bind. simpl.
    destruct (save_output_cases inp c w1)
      as [[? _]|(_ & w2 & _ & He2 & Hf2 &
                 [(s' & Hs' & ->)|[(J' & ? & _)|(J' & w3 & ? & _)]])];
      try congruence.
    exists w2. rewrite Hs in Hs'. injection Hs' as <-.
    split; [done|]. split; congruence.
Qed.

(** ** Further properties of the use collection *)

Lemma llvm_unreachable_not_Ok {A} (msg : string) (a : A) : llvm_unreachable msg ≠ Ok a.
Proof. unfold llvm_unreachable. by destruct NDEBUG. Qed.

Lemma stored_pairs_insert (d : Def) (u : Use) (c : Chains) :
  stored_pairs (chain_insert d u c)
  = if bool_decide (Use_Node u ∈ Use_Node <$> uses_of c d)
    then stored_pairs c else S (stored_pairs c).
Proof.
  unfold chain_insert, uses_of, stored_pairs.
  induction c as [|[k v] c IH]; [done|].
  cbn [unordered_map_update unordered_map_find]. rewrite key_match_Def.
  destruct (Def_Node k =? Def_Node d)%positive eqn:E.
  - rewrite !fmap_cons. cbn [sum_list_with default snd]. unfold unordered_set_emplace.
    destruct (unordered_set_count u v) eqn:Ec.
    + rewrite bool_decide_eq_true_2; [done|]. by apply unordered_set_count_Use.
    + rewrite bool_decide_eq_false_2.
      { rewrite length_app. simpl. lia. }
      intros Hin. apply (proj2 (unordered_set_count_Use u v)) in Hin.
      rewrite Hin in Ec. discriminate.
  - rewrite !fmap_cons. cbn [sum_list_with]. rewrite IH. by case_bool_decide.
Qed.

Lemma unsigned_incr_spec n :
  (N.of_nat (unsigned_incr n) = (N.of_nat n + 1) mod 2 ^ 32)%N.
Proof. unfold unsigned_incr. by rewrite N2Nat.id. Qed.

(** The counter after [k] more increments. *)
Lemma unsigned_incr_add (a b : nat) (k : nat) :
  (N.of_nat b = (N.of_nat (unsigned_incr a) + N.of_nat k) mod 2 ^ 32)%N →
  (N.of_nat b = (N.of_nat a + N.of_nat (S k)) mod 2 ^ 32)%N.
Proof.
  intros ->. rewrite unsigned_incr_spec, N.Div0.add_mod_idemp_l.
  f_equal. lia.
Qed.

Lemma unsigned_incr_lt n : (N.of_nat (unsigned_incr n) < 2 ^ 32)%N.
Proof. rewrite unsigned_incr_spec. by apply N.mod_upper_bound. Qed.

(** The counter and the store along the loop over [Visited]. *)
Lemma for_each_record_use_count an d l : ∀ st st',
  for_each (record_use an d) st l = Ok st' →
  ((N.of_nat st.2 < 2 ^ 32)%N →
   (N.of_nat st'.2 < 2 ^ 32)%N
   ∧ (N.of_nat st'.2
      = (N.of_nat st.2
         + N.of_nat (length (filter (λ n, isInstrumentedDeref (node_value (VFG an) n) = true) l)))
        mod 2 ^ 32)%N)
  ∧ (stored_pairs st'.1
     ≤ stored_pairs st.1
       + length (filter (λ n, isInstrumentedDeref (node_value (VFG an) n) = true) l))%nat
  ∧ (NoDup l → (∀ m, m ∈ l → m ∉ Use_Node <$> uses_of st.1 d) →
     stored_pairs st'.1
     = stored_pairs st.1
       + length (filter (λ n, isInstrumentedDeref (node_value (VFG an) n) = true) l)).
Proof.
  induction l as [|x l IH]; intros st st'; simpl.
  - intros [= <-]. simpl. split; [|split; [lia|lia]].
    intros Hlt. split; [done|]. rewrite N.add_0_r. by rewrite N.mod_small.
  - destruct (record_use_cases an d st x)
      as [[Hp ->]|[(Hp & Hls & u & -> & Hu)|(Hp & Hls & ->)]]; simpl.
    + intros (H2 & Hle & Heq)%IH.
      rewrite filter_cons_False by congruence. split; [done|]. split; [done|].
      intros [_ Hnd]%NoDup_cons Hfresh. apply Heq; [done|].
      intros m Hm. apply Hfresh. by right.
    + intros (H2 & Hle & Heq)%IH. simpl in *.
      rewrite filter_cons_True by done.
      pose proof (stored_pairs_insert d u st.1) as Hins.
      split; [|split].
      * intros _. destruct (H2 (unsigned_incr_lt _)) as [Hlt Hval].
        split; [done|]. by apply unsigned_incr_add.
      * cbn [length]. case_bool_decide; lia.
      * intros [Hx Hnd]%NoDup_cons Hfresh.
        rewrite bool_decide_eq_false_2 in Hins
          by (rewrite Hu; apply Hfresh; by left).
        cbn [length]. rewrite Heq; [lia|done|].
        intros m Hm [Hin|[_ ->]]%uses_of_insert_nodes.
        -- by apply (Hfresh m); [right|].
        -- congruence.
    + rewrite llvm_unreachable_bind. by intros ?%llvm_unreachable_not_Ok.
Qed.

(** The same along the loop over [Defs]. *)
Lemma for_each_collect_uses_count an Defs : ∀ st st',
  for_each (collect_uses_of an) st Defs = Ok st' →
  ((N.of_nat st.2 < 2 ^ 32)%N →
   (N.of_nat st'.2
    = (N.of_nat st.2 + N.of_nat (sum_list (instrumented_count an <$> Defs)))
      mod 2 ^ 32)%N)
  ∧ (stored_pairs st'.1
     ≤ stored_pairs st.1 + sum_list (instrumented_count an <$> Defs))%nat
  ∧ (NoDup (Def_Node <$> Defs) →
     (∀ d m, d ∈ Defs → m ∉ Use_Node <$> uses_of st.1 d) →
     stored_pairs st'.1
     = stored_pairs st.1 + sum_list (instrumented_count an <$> Defs)).
Proof.
  induction Defs as [|d Defs IH]; intros st st'; simpl.
  - intros [= <-]. split; [|split; [lia|lia]].
    intros Hlt. rewrite N.add_0_r. by rewrite N.mod_small.
  - change (collect_uses_of an st d)
      with (for_each (record_use an d) st
              (elements (visited_from (VFG an) (Def_Node d)))).
    destruct (for_each (record_use an d) st _) as [st1|s] eqn:E1; simpl; [|done].
    intros (H2 & Hle & Heq)%IH.
    destruct (for_each_record_use_count an d _ _ _ E1) as (H2' & Hle' & Heq').
    fold (instrumented_count an d) in H2', Hle', Heq'.
    change (list_fmap Def nat (instrumented_count an) Defs)
      with (instrumented_count an <$> Defs) in *.
    change (list_fmap Def NodePtr Def_Node Defs) with (Def_Node <$> Defs).
    split; [|split; [lia|]].
    + intros Hlt. destruct (H2' Hlt) as [Hlt1 Hval1].
      rewrite (H2 Hlt1), Hval1, N.Div0.add_mod_idemp_l. f_equal. lia.
    + intros [Hd Hnd]%NoDup_cons Hfresh.
      rewrite Heq, Heq'; [lia|apply NoDup_elements| |done|].
      * intros m _. apply Hfresh. by left.
      * intros d' m Hd' Hm.
        destruct (for_each_record_use an d
                    (elements (visited_from (VFG an) (Def_Node d))) st)
          as [[_ Hbad]|[_ (st1' & Hok & Hst1)]].
        { rewrite E1 in Hbad. by apply eq_sym, llvm_unreachable_not_Ok in Hbad. }
        rewrite E1 in Hok. injection Hok as <-.
        apply Hst1 in Hm as [Hm|(Hk & _)].
        -- by apply (Hfresh d' m); [right|].
        -- apply Hd. rewrite <- Hk. apply list_elem_of_fmap. by exists d'.
Qed.

(** X14.  The number of use sites [main] announces is an [unsigned]: it is,
    modulo [2^32], the number of visited nodes that pass the
    instrumented-dereference predicate, summed over the definitions
    collected, a definition counting again when it shares its node with an
    earlier one.  The chain store never holds more (definition, use) pairs
    than that sum; below [2^32] the sum is the number announced. *)
Theorem X14_NumUses_counts_visits an Defs c NumUses :
  collect_uses an Defs = Ok (c, NumUses) →
  (N.of_nat NumUses
   = N.of_nat (sum_list (instrumented_count an <$> Defs)) mod 2 ^ 32)%N
  ∧ (stored_pairs c ≤ sum_list (instrumented_count an <$> Defs))%nat
  ∧ ((N.of_nat (sum_list (instrumented_count an <$> Defs)) < 2 ^ 32)%N →
     NumUses = sum_list (instrumented_count an <$> Defs)
     ∧ (stored_pairs c ≤ NumUses)%nat).
Proof.
  intros Hrun. unfold collect_uses in Hrun.
  destruct (for_each_collect_uses_count an Defs _ _ Hrun) as (H2 & Hle & _).
  simpl in H2, Hle. change (stored_pairs []) with 0 in Hle.
  assert (N.of_nat NumUses
          = N.of_nat (sum_list (instrumented_count an <$> Defs)) mod 2 ^ 32)%N
    as Hval by (by apply H2).
  split; [done|]. split; [lia|]. intros Hlt.
  rewrite N.mod_small in Hval by done. apply Nat2N.inj in Hval. split; lia.
Qed.

(** X15.  When the definitions sit on pairwise distinct nodes, the chain
    store holds one (definition, use) pair for each visited node that passes
    the instrumented-dereference predicate, and the number of use sites
    [main] announces is the number of pairs in the store modulo [2^32]: the
    number itself when the store holds fewer than [2^32] pairs. *)
Theorem X15_NumUses_is_the_store_size an Defs c NumUses :
  NoDup (Def_Node <$> Defs) →
  collect_uses an Defs = Ok (c, NumUses) →
  stored_pairs c = sum_list (instrumented_count an <$> Defs)
  ∧ (N.of_nat NumUses = N.of_nat (stored_pairs c) mod 2 ^ 32)%N
  ∧ ((N.of_nat (stored_pairs c) < 2 ^ 32)%N → NumUses = stored_pairs c).
Proof.
  intros Hnd Hrun. unfold collect_uses in Hrun.
  destruct (for_each_collect_uses_count an Defs _ _ Hrun) as (H2 & _ & Heq).
  simpl in H2, Heq. change (stored_pairs []) with 0 in Heq.
  assert (stored_pairs c = sum_list (instrumented_count an <$> Defs)) as Hc.
  { rewrite Heq; [done|done|]. intros d m _ Hm. by apply elem_of_nil in Hm. }
  assert (N.of_nat NumUses = N.of_nat (stored_pairs c) mod 2 ^ 32)%N as Hval.
  { rewrite Hc. by apply H2. }
  split; [done|]. split; [done|]. intros Hlt.
  rewrite N.mod_small in Hval by done. by apply Nat2N.inj in Hval.
Qed.

Lemma for_each_invariant {S A} (body : S → A → Res S) (P : S → Prop) (l : list A) :
  (∀ s x s', x ∈ l → P s → body s x = Ok s' → P s') →
  ∀ s s', P s → for_each body s l = Ok s' → P s'.
Proof.
  induction l as [|x l IH]; intros Hbody s s' Hs; simpl.
  - by intros [= <-].
  - destruct (body s x) as [s1|] eqn:E; simpl; [|done].
    apply IH.
    + intros s0 y s0' Hy. apply Hbody. by right.
    + eapply Hbody; [by left|done|done].
Qed.

Lemma chain_insert_keys (d : Def) (u : Use) (c : Chains) :
  (λ entry, Def_Node entry.1) <$> chain_insert d u c
  = if decide (Def_Node d ∈ (λ entry, Def_Node entry.1) <$> c)
    then (λ entry, Def_Node entry.1) <$> c
    else ((λ entry, Def_Node entry.1) <$> c) ++ [Def_Node d].
Proof.
  unfold chain_insert. induction c as [|[k v] c IH]; [done|].
  cbn [unordered_map_update]. rewrite key_match_Def.
  destruct (Pos.eqb_spec (Def_Node k) (Def_Node d)) as [Hk|Hk].
  - rewrite !fmap_cons. cbn [fst]. rewrite decide_True; [done|]. rewrite Hk. by left.
  - rewrite !fmap_cons. cbn [fst]. rewrite IH.
    destruct (decide (Def_Node d ∈ _)) as [Hin|Hin].
    + rewrite decide_True; [done|]. by right.
    + rewrite decide_False; [done|]. intros [?|?]%elem_of_cons; congruence.
Qed.

Lemma chain_insert_Forall (Q : Def * list Use → Prop) (d : Def) (u : Use) (c : Chains) :
  Forall Q c →
  (∀ k v, Q (k, v) → Q (k, unordered_set_emplace u v)) →
  Q (d, unordered_set_emplace u []) →
  Forall Q (chain_insert d u c).
Proof.
  intros Hc Hupd Hnew. unfold chain_insert.
  induction Hc as [|[k v] c Hkv Hc IH]; cbn [unordered_map_update].
  - by constructor.
  - destruct (key_match d k); constructor; auto.
Qed.

Lemma chain_insert_ok an Defs (d : Def) (u : Use) (c : Chains) :
  chain_store_ok an Defs c → d ∈ Defs → use_recorded an u →
  chain_store_ok an Defs (chain_insert d u c).
Proof.
  intros [Hkeys Hall] Hd Hu. split.
  - rewrite chain_insert_keys. destruct (decide _) as [|Hin]; [done|].
    apply NoDup_app. split; [done|]. split; [|apply NoDup_singleton].
    by intros x Hx ->%list_elem_of_singleton.
  - apply chain_insert_Forall; [done| |].
    + intros k v (Hk & Hne & Hnd & Hrec). simpl in *. split; [done|].
      unfold unordered_set_emplace.
      destruct (unordered_set_count u v) eqn:Ec; [done|].
      split; [by destruct v|]. split.
      * rewrite fmap_app. apply NoDup_app. split; [done|].
        split; [|apply NoDup_singleton].
        intros x Hx ->%list_elem_of_singleton.
        apply (proj2 (unordered_set_count_Use u v)) in Hx. congruence.
      * apply Forall_app. split; [done|]. by constructor.
    + simpl. split; [done|]. split; [done|].
      split; [apply NoDup_singleton|]. by constructor.
Qed.

(** What the loop body leaves when it returns. *)
Lemma record_use_Ok_inv an d st n st' :
  record_use an d st n = Ok st' →
  st' = st
  ∨ ∃ u, st' = (chain_insert d u st.1, unsigned_incr st.2) ∧ Use_Node u = n ∧ use_recorded an u.
Proof.
  unfold record_use, use_recorded, Use_new.
  destruct (isInstrumentedDeref (node_value (VFG an) n)) eqn:Hp; simpl;
    [|intros [= <-]; by left].
  apply isInstrumentedDeref_true in Hp as (v & Inst & Hv & HI & Hmd). rewrite Hv.
  destruct v as [a oi]. simpl in HI. subst oi.
  destruct Inst as [[p|p| |] md loc par]; simpl;
    try (unfold llvm_unreachable; by destruct NDEBUG).
  all: intros [= <-]; right; eexists; split; [reflexivity|]; split; [done|].
  all: simpl; split; [done|]; eexists _, p; simpl; split; [done|].
  all: split; [by (left + right)|done].
Qed.

Lemma collect_uses_store_ok an Defs c NumUses :
  collect_uses an Defs = Ok (c, NumUses) → chain_store_ok an Defs c.
Proof.
  unfold collect_uses. intros Hrun.
  change c with ((c, NumUses).1).
  apply (for_each_invariant (collect_uses_of an)
           (λ st, chain_store_ok an Defs st.1) Defs) with (s := ([], 0)); [|..|done].
  - intros s d s' Hd Hs. unfold collect_uses_of.
    apply (for_each_invariant (record_use an d)
             (λ st, chain_store_ok an Defs st.1)); [|done].
    intros s0 n s0' _ Hs0 [->|(u & -> & _ & Hu)]%record_use_Ok_inv; [done|].
    by apply chain_insert_ok.
  - split; simpl; constructor.
Qed.

Lemma unordered_map_find_Some (d : Def) (c : Chains) (v : list Use) :
  unordered_map_find d c = Some v → ∃ k, (k, v) ∈ c ∧ Def_Node k = Def_Node d.
Proof.
  induction c as [|[k v'] c IH]; [done|].
  cbn [unordered_map_find]. rewrite key_match_Def.
  destruct (Pos.eqb_spec (Def_Node k) (Def_Node d)) as [Hk|Hk].
  - intros [= <-]. exists k. split; [by left|done].
  - intros (k' & Hin & ?)%IH. exists k'. split; [by right|done].
Qed.

Lemma collect_uses_nodes an Defs c NumUses (k : Def) (n : NodePtr) :
  collect_uses an Defs = Ok (c, NumUses) →
  n ∈ Use_Node <$> uses_of c k
  ↔ ∃ d, d ∈ Defs ∧ Def_Node k = Def_Node d
         ∧ tc (edge (VFG an)) (Def_Node d) n
         ∧ isInstrumentedDeref (node_value (VFG an) n) = true.
Proof.
  intros Hrun. unfold collect_uses in Hrun.
  destruct (for_each_collect_uses an Defs ([], 0)) as [[_ Hbad]|[_ (st' & Hok & Hst')]].
  { rewrite Hrun in Hbad. by apply eq_sym, llvm_unreachable_not_Ok in Hbad. }
  rewrite Hrun in Hok. injection Hok as <-. simpl in Hst'. rewrite Hst'. split.
  - intros [?%elem_of_nil|(d & Hd & Hk & Hv%visited_from_spec & Hp)]; [done|].
    by exists d.
  - intros (d & Hd & Hk & Hv%visited_from_spec & Hp). right. by exists d.
Qed.

(** X16.  When the use collection completes, the keys of the chain store are
    collected definitions on pairwise distinct nodes, and every use set it
    holds is non-empty and has pairwise distinct nodes. *)
Theorem X16_chain_store_shape an Defs c NumUses :
  collect_uses an Defs = Ok (c, NumUses) →
  NoDup ((λ entry, Def_Node entry.1) <$> c)
  ∧ ∀ k v, (k, v) ∈ c → k ∈ Defs ∧ v ≠ [] ∧ NoDup (Use_Node <$> v).
Proof.
  intros [Hkeys Hall]%collect_uses_store_ok. split; [done|].
  intros k v Hin. rewrite Forall_forall in Hall.
  destruct (Hall _ Hin) as (? & ? & ? & _). done.
Qed.

(** X17.  Every use the chain store holds carries the value of its node,
    which is a load or a store with the dereference annotation, the variable
    recovered for the pointer operand of that instruction (not for the
    instruction itself) and the debug location of the instruction. *)
Theorem X17_stored_uses_recorded an Defs c NumUses d u :
  collect_uses an Defs = Ok (c, NumUses) →
  u ∈ uses_of c d →
  use_recorded an u.
Proof.
  intros [_ Hall]%collect_uses_store_ok. unfold uses_of.
  destruct (unordered_map_find d c) as [v|] eqn:E; simpl; [|by intros ?%elem_of_nil].
  apply unordered_map_find_Some in E as (k & Hin & _).
  rewrite Forall_forall in Hall. destruct (Hall _ Hin) as (_ & _ & _ & Hrec).
  rewrite Forall_forall in Hrec. apply Hrec.
Qed.

(** X18.  A collected definition has no entry in the chain store exactly
    when no node reached from it passes the instrumented-dereference
    predicate: a definition without uses is left out of the store rather
    than stored with an empty use set. *)
Theorem X18_definition_without_uses_absent an Defs c NumUses d :
  collect_uses an Defs = Ok (c, NumUses) →
  d ∈ Defs →
  unordered_map_find d c = None
  ↔ ∀ n, tc (edge (VFG an)) (Def_Node d) n →
         isInstrumentedDeref (node_value (VFG an) n) = false.
Proof.
  intros Hrun Hd. pose proof (collect_uses_store_ok _ _ _ _ Hrun) as [_ Hall].
  split.
  - intros Hnone n Hn.
    destruct (isInstrumentedDeref (node_value (VFG an) n)) eqn:Hp; [|done].
    assert (n ∈ Use_Node <$> uses_of c d) as Hin.
    { apply (collect_uses_nodes an Defs c NumUses d n Hrun). by exists d. }
    unfold uses_of in Hin. rewrite Hnone in Hin. by apply elem_of_nil in Hin.
  - intros Hno. destruct (unordered_map_find d c) as [v|] eqn:E; [|done].
    pose proof E as (k & Hin & _)%unordered_map_find_Some.
    rewrite Forall_forall in Hall. destruct (Hall _ Hin) as (_ & Hne & _).
    destruct v as [|u v]; [done|].
    assert (Use_Node u ∈ Use_Node <$> uses_of c d) as Hu.
    { unfold uses_of. rewrite E. simpl. left. }
    apply (collect_uses_nodes an Defs c NumUses d _ Hrun) in Hu
      as (d' & _ & Hk & Hr & Hp).
    rewrite <- Hk in Hr. rewrite (Hno _ Hr) in Hp. done.
Qed.

(** X19.  When the node of one collected definition is reached from the
    node of another, every use stored for the first is, by its node, a use
    stored for the second. *)
Theorem X19_uses_of_reached_definition an Defs c NumUses d1 d2 u :
  collect_uses an Defs = Ok (c, NumUses) →
  d1 ∈ Defs →
  tc (edge (VFG an)) (Def_Node d1) (Def_Node d2) →
  u ∈ uses_of c d2 →
  ∃ u', u' ∈ uses_of c d1 ∧ Use_Node u' = Use_Node u.
Proof.
  intros Hrun Hd1 Hreach Hu.
  assert (Use_Node u ∈ Use_Node <$> uses_of c d2) as Hin.
  { apply list_elem_of_fmap. by exists u. }
  apply (collect_uses_nodes an Defs c NumUses d2 _ Hrun) in Hin
    as (d & _ & Hk & Hr & Hp).
  assert (Use_Node u ∈ Use_Node <$> uses_of c d1) as Hin1.
  { apply (collect_uses_nodes an Defs c NumUses d1 _ Hrun). exists d1.
    split; [done|]. split; [done|]. split; [|done].
    eapply tc_transitive; [exact Hreach|]. by rewrite Hk. }
  apply list_elem_of_fmap in Hin1 as (u' & ? & ?). by exists u'.
Qed.

(** X20.  Looking a definition up after [DefUseChains[d].emplace(u)]: a key
    on another node than [d] finds what it found before; a key on the node
    of [d] finds the uses that were stored for that node, each as it was,
    and besides them [u] alone, and only when no use on the node of [u] was
    stored for it.  Either way a use on the node of [u] is found. *)
Theorem X20_lookup_after_insert (d k : Def) (u : Use) (c : Chains) :
  (Def_Node k ≠ Def_Node d →
   unordered_map_find k (chain_insert d u c) = unordered_map_find k c)
  ∧ (Def_Node k = Def_Node d →
     (∀ u', u' ∈ uses_of (chain_insert d u c) k
            ↔ u' ∈ uses_of c d
              ∨ (u' = u ∧ Use_Node u ∉ Use_Node <$> uses_of c d))
     ∧ Use_Node u ∈ Use_Node <$> uses_of (chain_insert d u c) k).
Proof.
  split.
  - intros Hk. rewrite unordered_map_find_insert.
    by destruct (Pos.eqb_spec (Def_Node k) (Def_Node d)).
  - intros Hk. split.
    + intros u'. unfold uses_of at 1. rewrite unordered_map_find_insert.
      rewrite Hk, Pos.eqb_refl. simpl. unfold unordered_set_emplace.
      destruct (unordered_set_count u (uses_of c d)) eqn:Ec.
      * split; [by left|]. intros [?|[_ Hn]]; [done|].
        destruct Hn. by apply unordered_set_count_Use.
      * rewrite elem_of_app, list_elem_of_singleton. split.
        -- intros [?| ->]; [by left|]. right. split; [done|].
           intros Hin. apply (proj2 (unordered_set_count_Use u _)) in Hin.
           congruence.
        -- intros [?|[-> _]]; [by left|by right].
    + apply uses_of_insert_nodes. by right.
Qed.

(** X21.  The visited set depends on the out edges of a node as a set only:
    two graphs in which every node has the same successors, in whatever
    order and however often repeated, give the same visited set. *)
Theorem X21_visited_set_ignores_edge_order (g1 g2 : SVFG) (root : NodePtr) :
  (∀ n s, s ∈ out_edges g1 n ↔ s ∈ out_edges g2 n) →
  visited_from g1 root = visited_from g2 root.
Proof.
  graph_only. intros Hsame. apply set_eq. intros n. rewrite !visited_from_spec.
  split; apply tc_congruence with (f := id); intros x y; apply Hsame.
Qed.

Lemma collect_defs_app an pre : ∀ post Defs0,
  collect_defs an (pre ++ post) Defs0
  = collect_defs an pre Defs0 ≫= collect_defs an post.
Proof.
  induction pre as [|x pre IH]; intros post Defs0; [done|].
  rewrite <- app_comm_cons. cbn [collect_defs].
  destruct (getCallee x) as [F|]; [|by apply IH].
  destruct (is_tagged_name (Function_getName F)); [|by apply IH].
  unfold assert.
  destruct NDEBUG, (isTaggedAlloc (Some (getCallSite x))),
    (is_alloc (Externals an) F || is_realloc (Externals an) F);
    simpl; try done; apply IH.
Qed.

(** X22.  In a build with assertions, the collector stops at the first call
    site with a tagged callee that fails a check, whatever follows it, and the
    abort names the check: the missing annotation first, the unclassified
    callee only for an annotated call. *)
Theorem X22_first_failing_site_aborts an pre s F post Defs0 Defs1 :
  NDEBUG = false →
  collect_defs an pre Defs0 = Ok Defs1 →
  getCallee s = Some F → is_tagged_name (Function_getName F) = true →
  isTaggedAlloc (Some (getCallSite s))
  && (is_alloc (Externals an) F || is_realloc (Externals an) F) = false →
  collect_defs an (pre ++ s :: post) Defs0
  = Halt (Abort (if isTaggedAlloc (Some (getCallSite s))
                 then "Tagged function must (re)allocate"
                 else "Tagged alloc must have fuzzalloc metadata")).
Proof.
  intros Hnd Hpre HF Hname Hfail. rewrite collect_defs_app, Hpre.
  cbn [mbind Res_bind collect_defs]. rewrite HF, Hname. unfold assert. rewrite Hnd.
  destruct (isTaggedAlloc (Some (getCallSite s))); [|reflexivity].
  simpl in Hfail. rewrite Hfail. reflexivity.
Qed.

End dataflow_sa.

(** ** The claims on the sample programs *)

(** The whole run on the chain 1 → 2 → 3: one definition with one use. *)
Example main_chain_output :
  (main false ex_tagged_md ex_deref_md ex_print ex_hash
     (ex_input (ex_analysis ex_ext [ex_site_malloc] ex_chain)) ex_world).2 = Ok 0%Z
  ∧ files (main false ex_tagged_md ex_deref_md ex_print ex_hash
             (ex_input (ex_analysis ex_ext [ex_site_malloc] ex_chain)) ex_world).1
    !! "out.json"
    = Some (JArray [JArray [
        JArray [JArray [JString "%10"; JArray [JNull; JString "entry"; JNull]];
                JArray [JArray [JString "%12";
                                JArray [JNull; JString "entry"; JNull]]]]]]).
Proof. split; vm_compute; reflexivity. Qed.

(** The chain 1 → 2 → 3: the load at node 3 is the only use of the
    definition at node 1, the pointer arithmetic at node 2 is dropped. *)
Lemma C1_use_set_exact_witness :
  collect_uses false ex_deref_md ex_hash
    (ex_analysis ex_ext [ex_site_malloc] ex_chain) [ex_def ex_chain]
  = Ok ([(ex_def ex_chain, [ex_use])], 1)
  ∧ ((∃ u, u ∈ uses_of ex_hash [(ex_def ex_chain, [ex_use])] (ex_def ex_chain)
           ∧ Use_Node u = 3%positive)
     ↔ tc (edge ex_chain) 1%positive 3%positive
       ∧ isInstrumentedDeref ex_deref_md (node_value ex_chain 3%positive) = true).
Proof.
  assert (collect_uses false ex_deref_md ex_hash
            (ex_analysis ex_ext [ex_site_malloc] ex_chain) [ex_def ex_chain]
          = Ok ([(ex_def ex_chain, [ex_use])], 1)) as Hrun
    by (vm_compute; reflexivity).
  split; [exact Hrun|].
  apply (C1_use_set_exact false ex_deref_md ex_hash _ _ _ _ (ex_def ex_chain)
           3%positive Hrun).
  left.
Defined.


(** With [NDEBUG] defined, a visited call that carries the dereference
    annotation leaves the run without defined behaviour instead of aborting
    it. *)
Lemma C3_unexpected_use_counterexample :
  isInstrumentedDeref ex_deref_md (node_value ex_marked 2%positive) = true
  ∧ is_load_or_store (node_value ex_marked 2%positive) = false
  ∧ collect_uses true ex_deref_md ex_hash
      (ex_analysis ex_ext [ex_site_malloc] ex_marked) [ex_def ex_marked]
    = Halt Undefined
  ∧ (main true ex_tagged_md ex_deref_md ex_print ex_hash
       (ex_input (ex_analysis ex_ext [ex_site_malloc] ex_marked)) ex_world).2
    = Halt Undefined.
Proof. repeat split; vm_compute; reflexivity. Qed.

Lemma C3_unexpected_use_aborts_witness :
  (∀ d' st, record_use false ex_deref_md ex_hash
              (ex_analysis ex_ext [ex_site_malloc] ex_marked) d' st 2%positive
            = Halt (Abort "use must be a load or store"))
  ∧ collect_uses false ex_deref_md ex_hash
      (ex_analysis ex_ext [ex_site_malloc] ex_marked) [ex_def ex_marked]
    = Halt (Abort "use must be a load or store")
  ∧ (∀ inp w,
       parseIRFile inp = inr (ex_analysis ex_ext [ex_site_malloc] ex_marked) →
       collect_defs false ex_tagged_md (ex_analysis ex_ext [ex_site_malloc] ex_marked)
         (getCallSiteSet (ex_analysis ex_ext [ex_site_malloc] ex_marked)) []
       = Ok [ex_def ex_marked] →
       ∃ w', main false ex_tagged_md ex_deref_md ex_print ex_hash inp w
             = (w', Halt (Abort "use must be a load or store"))
             ∧ files w' = files w).
Proof.
  apply (C3_unexpected_use_aborts false ex_tagged_md ex_deref_md ex_print ex_hash
           (ex_analysis ex_ext [ex_site_malloc] ex_marked) [ex_def ex_marked]
           (ex_def ex_marked) 2%positive).
  - reflexivity.
  - left.
  - apply tc_once. vm_compute. left.
  - vm_compute; reflexivity.
  - vm_compute; reflexivity.
Defined.

(** With [NDEBUG] defined, a call to [__tagged_malloc] without the
    annotation, whose callee the external API does not know, becomes a
    definition. *)
Lemma C4_definition_sites_counterexample :
  collect_defs true ex_tagged_md (ex_analysis ex_ext_none [ex_site_plain] ex_chain)
    [ex_site_plain] []
  = Ok [ex_def ex_chain]
  ∧ isTaggedAlloc ex_tagged_md (Some (getCallSite ex_site_plain)) = false
  ∧ is_alloc ex_ext_none ex_malloc = false
  ∧ is_realloc ex_ext_none ex_malloc = false.
Proof. repeat split; vm_compute; reflexivity. Qed.

Lemma C4_definition_sites_checked_witness :
  (∀ Defs,
     collect_defs false ex_tagged_md (ex_analysis ex_ext [ex_site_malloc] ex_chain)
       (getCallSiteSet (ex_analysis ex_ext [ex_site_malloc] ex_chain)) [] = Ok Defs →
     isTaggedAlloc ex_tagged_md (Some (getCallSite ex_site_malloc)) = true
     ∧ (is_alloc (Externals (ex_analysis ex_ext [ex_site_malloc] ex_chain)) ex_malloc
        = true
        ∨ is_realloc (Externals (ex_analysis ex_ext [ex_site_malloc] ex_chain)) ex_malloc
          = true))
  ∧ (isTaggedAlloc ex_tagged_md (Some (getCallSite ex_site_malloc)) = false
     ∨ (is_alloc (Externals (ex_analysis ex_ext [ex_site_malloc] ex_chain)) ex_malloc
        = false
        ∧ is_realloc (Externals (ex_analysis ex_ext [ex_site_malloc] ex_chain)) ex_malloc
          = false) →
     ∃ msg,
       collect_defs false ex_tagged_md (ex_analysis ex_ext [ex_site_malloc] ex_chain)
         (getCallSiteSet (ex_analysis ex_ext [ex_site_malloc] ex_chain)) []
       = Halt (Abort msg)
       ∧ ∀ inp w,
           parseIRFile inp = inr (ex_analysis ex_ext [ex_site_malloc] ex_chain) →
           main false ex_tagged_md ex_deref_md ex_print ex_hash inp w
           = (log_collecting inp w, Halt (Abort msg))).
Proof.
  apply (C4_definition_sites_checked false ex_tagged_md ex_deref_md ex_print ex_hash
           (ex_analysis ex_ext [ex_site_malloc] ex_chain) ex_site_malloc ex_malloc).
  - reflexivity.
  - left.
  - reflexivity.
  - vm_compute; reflexivity.
Defined.

(** With assertions enabled the unannotated call site aborts the collector. *)
Example collect_defs_unannotated_aborts :
  collect_defs false ex_tagged_md (ex_analysis ex_ext_none [ex_site_plain] ex_chain)
    [ex_site_plain] []
  = Halt (Abort "Tagged alloc must have fuzzalloc metadata").
Proof. vm_compute; reflexivity. Qed.

(** A program whose only call sites are an indirect call and a call to
    [puts]. *)
Lemma C5_no_definitions_exit_witness :
  ∃ w', main false ex_tagged_md ex_deref_md ex_print ex_hash
          (ex_input (ex_analysis ex_ext [ex_site_indirect; ex_site_puts] ex_chain))
          ex_world
        = (w', Halt (Exit 1))
    ∧ errs w' = errs ex_world ++ ["[!] Failed to collect any def sites" +:+ nl]
    ∧ files w' = files ex_world
    ∧ outs w'
      = outs (log_collecting
                (ex_input (ex_analysis ex_ext [ex_site_indirect; ex_site_puts] ex_chain))
                ex_world).
Proof.
  apply (C5_no_definitions_exit false ex_tagged_md ex_deref_md ex_print ex_hash
           (ex_input (ex_analysis ex_ext [ex_site_indirect; ex_site_puts] ex_chain))
           (ex_analysis ex_ext [ex_site_indirect; ex_site_puts] ex_chain) ex_world).
  - reflexivity.
  - vm_compute; reflexivity.
Defined.

(** On the graph with the cycle 1 → 2 → 1 the root is popped twice. *)
Lemma C6_root_popped_twice_counterexample :
  traverse_from ex_cycle 1%positive
  = Some (list_to_set [1%positive; 2%positive; 3%positive],
          [1%positive; 2%positive; 3%positive; 1%positive])
  ∧ ¬ NoDup [1%positive; 2%positive; 3%positive; 1%positive].
Proof.
  split; [vm_compute; reflexivity|].
  intros Hnd. apply NoDup_cons in Hnd as [Hin _]. apply Hin.
  right. right. left.
Qed.

(** The same definition and the same use with other variables attached. *)
Lemma C7_identity_is_the_node_witness :
  key_eq (Hashable := hash_Def ex_hash)
    (Def_new ex_chain 1 (Some {| DIVariable_getName := "p"; DIVariable_getFile := "a.c";
                                 DIVariable_getLine := 3;
                                 DIVariable_kind := DILocalVariable "main" |}))
    (ex_def ex_chain) = true
  ∧ chain_insert ex_hash
      (Def_new ex_chain 1 (Some {| DIVariable_getName := "p"; DIVariable_getFile := "a.c";
                                   DIVariable_getLine := 3;
                                   DIVariable_kind := DILocalVariable "main" |}))
      ex_use_dbg (chain_insert ex_hash (ex_def ex_chain) ex_use [])
    = chain_insert ex_hash (ex_def ex_chain) ex_use [].
Proof.
  pose proof (C7_identity_is_the_node ex_hash (ex_def ex_chain)
    (Def_new ex_chain 1 (Some {| DIVariable_getName := "p"; DIVariable_getFile := "a.c";
                                 DIVariable_getLine := 3;
                                 DIVariable_kind := DILocalVariable "main" |}))
    ex_use ex_use_dbg [] eq_refl eq_refl) as (H1 & _ & _ & _ & _ & _ & H2 & _).
  exact (conj H1 H2).
Defined.

(** A use renders with three positional fields, not two. *)
Lemma C8_use_positions_counterexample :
  toJSON_Use ex_print ex_use_dbg
  = JArray [JString "%12"; JArray [JNull; JString "main"; JNumber 7]]
  ∧ toJSON_Use_spec ex_print ex_use_dbg
    = JArray [JString "%12"; JArray [JString "main"; JNumber 7]]
  ∧ toJSON_Use ex_print ex_use_dbg ≠ toJSON_Use_spec ex_print ex_use_dbg.
Proof.
  split; [vm_compute; reflexivity|]. split; [vm_compute; reflexivity|].
  vm_compute. discriminate.
Qed.

Lemma C8_rendering_positions_witness :
  (∃ name file func line,
      JArray [JString "%10"; JArray [JNull; JString "entry"; JNull]]
      = JArray [JString name; JArray [file; func; line]]
      ∧ optional_string file ∧ optional_string func ∧ optional_unsigned line
      ∧ (∀ Var, Def_Var (ex_def ex_chain) = Some Var →
           file = JString (DIVariable_getFile Var)))
  ∧ (∃ name func line,
      toJSON_Use ex_print ex_use = JArray [JString name; JArray [JNull; func; line]]
      ∧ optional_string func ∧ optional_unsigned line).
Proof.
  apply (C8_rendering_positions false ex_print (ex_def ex_chain) ex_use).
  vm_compute; reflexivity.
Defined.

(** A use without a variable but with a debug location takes function and
    line from the location. *)
Lemma C9_use_with_location_counterexample :
  Use_Var ex_use_dbg = None
  ∧ toJSON_Use ex_print ex_use_dbg
    = JArray [JString "%12"; JArray [JNull; JString "main"; JNumber 7]]
  ∧ fallback_rendering ex_print (Use_Val ex_use_dbg)
    = JArray [JString "%12"; JArray [JNull; JString "entry"; JNull]]
  ∧ toJSON_Use ex_print ex_use_dbg ≠ fallback_rendering ex_print (Use_Val ex_use_dbg).
Proof.
  split; [reflexivity|]. split; [vm_compute; reflexivity|].
  split; [vm_compute; reflexivity|]. vm_compute. discriminate.
Qed.

Lemma C9_rendering_without_variable_witness :
  toJSON_Def false ex_print (ex_def ex_chain) = Ok (fallback_rendering ex_print ex_call)
  ∧ (Use_Loc ex_use = None →
     toJSON_Use ex_print ex_use = fallback_rendering ex_print (Use_Val ex_use))
  ∧ (∀ Loc, Use_Loc ex_use = Some Loc →
       toJSON_Use ex_print ex_use
       = JArray [JString (ex_print (Use_Val ex_use));
                 JArray [JNull; JString (DILocation_getSubprogram Loc);
                         JNumber (DILocation_getLine Loc)]])
  ∧ (∃ name rest, fallback_rendering ex_print ex_call = JArray [JString name; rest]
                  ∧ name ≠ "")
  ∧ (∃ name rest, toJSON_Use ex_print ex_use = JArray [JString name; rest]
                  ∧ name ≠ "").
Proof.
  apply (C9_rendering_without_variable false ex_print (ex_def ex_chain) ex_call ex_use).
  - intros x. unfold ex_print. simpl. discriminate.
  - reflexivity.
  - vm_compute; reflexivity.
  - reflexivity.
Defined.

(** An indirect call between a tagged allocation and a call to [puts]. *)
Lemma C10_unresolved_callee_skipped_witness :
  collect_defs false ex_tagged_md (ex_analysis ex_ext [] ex_chain)
    ([ex_site_malloc] ++ ex_site_indirect :: [ex_site_puts]) []
  = collect_defs false ex_tagged_md (ex_analysis ex_ext [] ex_chain)
      ([ex_site_malloc] ++ [ex_site_puts]) []
  ∧ collect_defs false ex_tagged_md (ex_analysis ex_ext [] ex_chain)
      ([ex_site_malloc] ++ ex_site_indirect :: [ex_site_puts]) []
    = Ok [ex_def ex_chain].
Proof.
  pose proof (C10_unresolved_callee_skipped false ex_tagged_md
                (ex_analysis ex_ext [] ex_chain)
                [ex_site_malloc] ex_site_indirect [ex_site_puts] [] eq_refl)
    as (H1 & _ & _).
  split; [exact H1|]. vm_compute; reflexivity.
Defined.

(** ** The macro [RAND] *)

Section fuzzalloc_RAND.
Local Open Scope Z_scope.
Local Arguments int_result : simpl never.
Local Arguments long_result : simpl never.
Local Arguments int_div : simpl never.
Local Arguments long_div : simpl never.

Lemma int_result_fits z : INT_MIN ≤ z ≤ INT_MAX → int_result z = Some z.
Proof. intros. unfold int_result. by rewrite bool_decide_eq_true_2. Qed.

Lemma long_result_fits z : LONG_MIN ≤ z ≤ LONG_MAX → long_result z = Some z.
Proof. intros. unfold long_result. by rewrite bool_decide_eq_true_2. Qed.

Lemma int_div_fits a b :
  b ≠ 0 → INT_MIN ≤ a ÷ b ≤ INT_MAX → int_div a b = Some (a ÷ b).
Proof.
  intros. unfold int_div. rewrite bool_decide_eq_false_2 by done.
  by apply int_result_fits.
Qed.

Lemma long_div_fits a b :
  b ≠ 0 → LONG_MIN ≤ a ÷ b ≤ LONG_MAX → long_div a b = Some (a ÷ b).
Proof.
  intros. unfold long_div. rewrite bool_decide_eq_false_2 by done.
  by apply long_result_fits.
Qed.

Lemma RAND_divisor_bounds RAND_MAX x y :
  0 < RAND_MAX → x ≤ y →
  1 ≤ RAND_divisor RAND_MAX x y
  ∧ RAND_divisor RAND_MAX x y ≤ RAND_MAX + 1
  ∧ RAND_MAX < (y - x + 1) * RAND_divisor RAND_MAX x y
  ∧ (x < y → RAND_divisor RAND_MAX x y ≤ RAND_MAX).
Proof.
  intros HR Hxy. unfold RAND_divisor.
  rewrite Z.quot_div_nonneg by lia.
  pose proof (Z.div_pos RAND_MAX (y - x + 1) ltac:(lia) ltac:(lia)) as Hq.
  pose proof (Z.mul_div_le RAND_MAX (y - x + 1) ltac:(lia)) as Hle.
  pose proof (Z.mul_succ_div_gt RAND_MAX (y - x + 1) ltac:(lia)) as Hgt.
  repeat split; nia.
Qed.

(** The macro where its arithmetic is defined: the tag it computes. *)
Lemma RAND_value RAND_MAX x y r :
  0 < RAND_MAX ≤ INT_MAX → 0 ≤ x → x ≤ y → y < 2 ^ 16 → 0 ≤ r ≤ RAND_MAX →
  x < y ∨ RAND_MAX < INT_MAX →
  RAND RAND_MAX x y r = Some (x + r / RAND_divisor RAND_MAX x y)
  ∧ 0 ≤ r / RAND_divisor RAND_MAX x y ≤ y - x.
Proof.
  intros [HR HRmax] Hx Hxy Hy Hr Hne.
  destruct (RAND_divisor_bounds RAND_MAX x y HR Hxy) as (Hd1 & Hd2 & Hd3 & Hd4).
  assert (0 ≤ r / RAND_divisor RAND_MAX x y ≤ y - x) as Hoff.
  { split; [apply Z.div_pos; lia|].
    enough (r / RAND_divisor RAND_MAX x y < y - x + 1) by lia.
    apply Z.div_lt_upper_bound; [lia|]. nia. }
  split; [|exact Hoff].
  assert (RAND_divisor RAND_MAX x y ≤ INT_MAX) as HdI.
  { destruct Hne as [Hlt|Hlt]; [specialize (Hd4 Hlt)|]; lia. }
  assert (0 ≤ RAND_MAX ÷ (y - x + 1) ≤ RAND_MAX) as Hq.
  { unfold RAND_divisor in *. lia. }
  unfold RAND.
  rewrite (int_result_fits (y - x)) by (unfold INT_MIN, INT_MAX in *; lia). simpl.
  rewrite (int_result_fits (y - x + 1)) by (unfold INT_MIN, INT_MAX in *; lia).
  simpl.
  rewrite int_div_fits by (unfold INT_MIN, INT_MAX in *; lia). simpl.
  fold (RAND_divisor RAND_MAX x y).
  rewrite int_result_fits by (unfold INT_MIN, INT_MAX in *; lia). simpl.
  rewrite long_div_fits
    by (rewrite ?Z.quot_div_nonneg by lia; unfold LONG_MIN, LONG_MAX, INT_MAX in *; lia).
  simpl. rewrite Z.quot_div_nonneg by lia.
  rewrite long_result_fits by (unfold LONG_MIN, LONG_MAX, INT_MAX in *; lia).
  simpl. unfold tag_t. rewrite Z.mod_small by lia. done.
Qed.

(** X1.  The macro returns a tag between its two bounds whenever the value of
    [random()] lies between 0 and [RAND_MAX]. *)
Theorem X1_RAND_in_range RAND_MAX x y r :
  0 < RAND_MAX ≤ INT_MAX → 0 ≤ x → x ≤ y → y < 2 ^ 16 → 0 ≤ r ≤ RAND_MAX →
  x < y ∨ RAND_MAX < INT_MAX →
  ∃ t, RAND RAND_MAX x y r = Some t ∧ x ≤ t ≤ y.
Proof.
  intros HR Hx Hxy Hy Hr Hne.
  destruct (RAND_value RAND_MAX x y r HR Hx Hxy Hy Hr Hne) as [-> Hoff].
  eexists. split; [reflexivity|]. lia.
Qed.

(** X2.  The values of [random()] that give one tag form one block of
    consecutive numbers, as long as the divisor of the macro: the tag [t] is
    returned exactly for the values from [(t - x) * divisor] up to, and not
    including, [(t - x + 1) * divisor]. *)
Theorem X2_RAND_preimage RAND_MAX x y r t :
  0 < RAND_MAX ≤ INT_MAX → 0 ≤ x → x ≤ y → y < 2 ^ 16 → 0 ≤ r ≤ RAND_MAX →
  x < y ∨ RAND_MAX < INT_MAX →
  RAND RAND_MAX x y r = Some t
  ↔ (t - x) * RAND_divisor RAND_MAX x y ≤ r
    ∧ r < (t - x + 1) * RAND_divisor RAND_MAX x y.
Proof.
  intros HR Hx Hxy Hy Hr Hne.
  destruct (RAND_value RAND_MAX x y r HR Hx Hxy Hy Hr Hne) as [-> Hoff].
  destruct (RAND_divisor_bounds RAND_MAX x y (proj1 HR) Hxy) as (Hd1 & _).
  pose proof (Z.mul_div_le r (RAND_divisor RAND_MAX x y) ltac:(lia)) as Hle.
  pose proof (Z.mul_succ_div_gt r (RAND_divisor RAND_MAX x y) ltac:(lia)) as Hgt.
  split.
  - intros [= <-]. split; nia.
  - intros [Hlo Hhi]. f_equal.
    enough (r / RAND_divisor RAND_MAX x y = t - x) by lia.
    symmetry. apply (Z.div_unique r _ (t - x) (r - (t - x) * RAND_divisor RAND_MAX x y));
      [left|]; lia.
Qed.

(** X3.  The tags the macro can return: a tag between the bounds is returned for
    some value of [random()] exactly when its distance to the lower bound,
    times the divisor, does not exceed [RAND_MAX]. *)
Theorem X3_RAND_image RAND_MAX x y t :
  0 < RAND_MAX ≤ INT_MAX → 0 ≤ x → x ≤ y → y < 2 ^ 16 →
  x < y ∨ RAND_MAX < INT_MAX →
  (∃ r, 0 ≤ r ≤ RAND_MAX ∧ RAND RAND_MAX x y r = Some t)
  ↔ x ≤ t ≤ y ∧ (t - x) * RAND_divisor RAND_MAX x y ≤ RAND_MAX.
Proof.
  intros HR Hx Hxy Hy Hne.
  destruct (RAND_divisor_bounds RAND_MAX x y (proj1 HR) Hxy) as (Hd1 & _).
  split.
  - intros (r & Hr & Ht).
    destruct (RAND_value RAND_MAX x y r HR Hx Hxy Hy Hr Hne) as [Hv Hoff].
    rewrite Hv in Ht. injection Ht as <-.
    pose proof (Z.mul_div_le r (RAND_divisor RAND_MAX x y) ltac:(lia)). split; nia.
  - intros [Ht Hmax].
    exists ((t - x) * RAND_divisor RAND_MAX x y).
    assert (0 ≤ (t - x) * RAND_divisor RAND_MAX x y ≤ RAND_MAX) as Hr by nia.
    split; [done|].
    destruct (RAND_value RAND_MAX x y _ HR Hx Hxy Hy Hr Hne) as [-> _].
    rewrite Z.div_mul by lia. f_equal. lia.
Qed.

(** X4.  With [RAND_MAX] equal to [INT_MAX], as in glibc, the macro has no defined
    result when its two bounds are equal: [RAND_MAX / 1 + 1] overflows. *)
Theorem X4_RAND_equal_bounds_overflow x r : RAND INT_MAX x x r = None.
Proof. unfold RAND. rewrite Z.sub_diag. reflexivity. Qed.

End fuzzalloc_RAND.

(** ** The further properties on the sample programs *)

Lemma X1_RAND_in_range_witness :
  ∃ t, RAND 2147483647 1 65535 2147483647 = Some t ∧ (1 ≤ t ≤ 65535)%Z.
Proof.
  apply (X1_RAND_in_range 2147483647 1 65535 2147483647);
    unfold INT_MAX; try lia.
Defined.

(** With the 65536 tags from 0 to 65535 the divisor is 32768: the tag 5 is
    returned for the values from 163840 to 196607. *)
Lemma X2_RAND_preimage_witness :
  RAND 2147483647 0 65535 163840 = Some 5%Z
  ↔ ((5 - 0) * RAND_divisor 2147483647 0 65535 ≤ 163840
     ∧ 163840 < (5 - 0 + 1) * RAND_divisor 2147483647 0 65535)%Z.
Proof.
  apply (X2_RAND_preimage 2147483647 0 65535 163840 5);
    unfold INT_MAX; try lia.
Defined.

Lemma X3_RAND_image_witness :
  (∃ r, (0 ≤ r ≤ 2147483647)%Z ∧ RAND 2147483647 0 59999 r = Some 59999%Z)
  ↔ (0 ≤ 59999 ≤ 59999)%Z
    ∧ ((59999 - 0) * RAND_divisor 2147483647 0 59999 ≤ 2147483647)%Z.
Proof.
  apply (X3_RAND_image 2147483647 0 59999 59999); unfold INT_MAX; try lia.
Defined.

(** With 60000 tags the upper bound is never returned. *)
Example RAND_upper_bound_never_returned :
  ¬ ∃ r, (0 ≤ r ≤ 2147483647)%Z ∧ RAND 2147483647 0 59999 r = Some 59999%Z.
Proof.
  intros (r & Hr & Ht).
  destruct (RAND_value 2147483647 0 59999 r) as [Hv _];
    [unfold INT_MAX; lia|lia|lia|lia|lia|left; lia|].
  rewrite Hv in Ht. injection Ht as Ht.
  change (RAND_divisor 2147483647 0 59999) with 35792%Z in Ht.
  pose proof (Z.mul_div_le r 35792 ltac:(lia)). lia.
Qed.

Lemma X7_toJSON_Def_with_variable_witness :
  (∀ sp, DIVariable_kind ex_var_local = DILocalVariable sp →
     toJSON_Def false ex_print (Def_new ex_null_root 1 (Some ex_var_local))
     = Ok (JArray [JString (DIVariable_getName ex_var_local);
                   JArray [JString (DIVariable_getFile ex_var_local); JString sp;
                           JNumber (DIVariable_getLine ex_var_local)]]))
  ∧ (∀ v, DIVariable_kind ex_var_local = DIGlobalVariable →
       Def_Val (Def_new ex_null_root 1 (Some ex_var_local)) = Some v →
       toJSON_Def false ex_print (Def_new ex_null_root 1 (Some ex_var_local))
       = Ok (JArray [JString (DIVariable_getName ex_var_local);
                     JArray [JString (DIVariable_getFile ex_var_local);
                             json_of_string (getParentName <$> asInstruction v);
                             JNumber (DIVariable_getLine ex_var_local)]])).
Proof.
  apply (X7_toJSON_Def_with_variable false ex_print
           (Def_new ex_null_root 1 (Some ex_var_local)) ex_var_local).
  reflexivity.
Defined.

(** A global variable on the call: the function is the block of the call. *)
Example toJSON_Def_global_variable :
  toJSON_Def false ex_print (Def_new ex_chain 1 (Some ex_var_global))
  = Ok (JArray [JString "buf"; JArray [JString "a.c"; JString "entry"; JNumber 1]]).
Proof. vm_compute; reflexivity. Qed.

Lemma X8_main_parse_failure_witness :
  main false ex_tagged_md ex_deref_md ex_print ex_hash ex_input_unparsed ex_world
  = ({| outs := outs ex_world
                ++ ["[*] Parsing " +:+ BCFilename ex_input_unparsed +:+ "..." +:+ nl];
        errs := errs ex_world
                ++ ["[!] Failed to parse `" +:+ BCFilename ex_input_unparsed +:+ "`: "
                    +:+ "expected top-level entity" +:+ nl];
        files := files ex_world; dash := dash ex_world |}, Halt (Exit 1)).
Proof.
  apply (X8_main_parse_failure false ex_tagged_md ex_deref_md ex_print ex_hash
           ex_input_unparsed "expected top-level entity" ex_world).
  reflexivity.
Defined.

(** The run on the chain 1 → 2 → 3 writes the file at the output path. *)
Lemma X9_main_writes_only_the_output_witness :
  ∃ J, files (main false ex_tagged_md ex_deref_md ex_print ex_hash
                (ex_input (ex_analysis ex_ext [ex_site_malloc] ex_chain)) ex_world).1
       = <[OutJSON (ex_input (ex_analysis ex_ext [ex_site_malloc] ex_chain)) :=
             JArray [JArray J]]> (files ex_world).
Proof.
  apply (proj1 (X9_main_writes_only_the_output false ex_tagged_md ex_deref_md
                  ex_print ex_hash
                  (ex_input (ex_analysis ex_ext [ex_site_malloc] ex_chain)) ex_world)).
  - vm_compute; reflexivity.
  - discriminate.
  - discriminate.
Defined.

(** The same run with the path ["-"]: the chains go to the standard output
    and no file is written. *)
Example main_dash_output :
  main false ex_tagged_md ex_deref_md ex_print ex_hash
    (ex_input_dash (ex_analysis ex_ext [ex_site_malloc] ex_chain)) ex_world
  = ({| outs := ["[*] Parsing a.bc..." +:+ nl;
                 "[*] Running variable recovery pass..." +:+ nl;
                 "[*] Doing pointer analysis..." +:+ nl;
                 "[*] Collecting definitions..." +:+ nl;
                 "[+] Collected 1 def sites" +:+ nl;
                 "[*] Collecting uses..." +:+ nl;
                 "[+] Collected 1 use sites" +:+ nl;
                 "[*] Serializing def/use chains to JSON..." +:+ nl;
                 "[*] Writing to -..." +:+ nl];
        errs := [];
        files := ∅;
        dash := [JArray [JArray [
                   JArray [JArray [JString "%10";
                                   JArray [JNull; JString "entry"; JNull]];
                           JArray [JArray [JString "%12";
                                           JArray [JNull; JString "entry"; JNull]]]]]]]
     |}, Ok 0%Z).
Proof. vm_compute; reflexivity. Qed.


Lemma X11_main_unwritable_output_witness :
  ∃ w', main false ex_tagged_md ex_deref_md ex_print ex_hash
          (ex_input_unwritable (ex_analysis ex_ext [ex_site_malloc] ex_chain)) ex_world
        = (w', Halt (Exit 1))
    ∧ files w' = files ex_world
    ∧ errs w'
      = errs ex_world
        ++ ["[!] Unable to open "
            +:+ OutJSON (ex_input_unwritable
                           (ex_analysis ex_ext [ex_site_malloc] ex_chain)) +:+ nl].
Proof.
  apply (X11_main_unwritable_output false ex_tagged_md ex_deref_md ex_print ex_hash
           (ex_input_unwritable (ex_analysis ex_ext [ex_site_malloc] ex_chain))
           (ex_analysis ex_ext [ex_site_malloc] ex_chain) ex_world
           [ex_def ex_chain] [(ex_def ex_chain, [ex_use])] 1
           [JArray [JArray [JString "%10"; JArray [JNull; JString "entry"; JNull]];
                    JArray [JArray [JString "%12";
                                    JArray [JNull; JString "entry"; JNull]]]]]).
  - reflexivity.
  - vm_compute; reflexivity.
  - discriminate.
  - vm_compute; reflexivity.
  - discriminate.
  - vm_compute; reflexivity.
  - reflexivity.
Defined.

(** Without an output path the run on the graph whose root has no value
    returns 0, although its definition has no rendering. *)
Lemma X12_main_without_output_path_witness :
  ∃ w', main false ex_tagged_md ex_deref_md ex_print ex_hash
          (ex_input_quiet (ex_analysis ex_ext [ex_site_malloc] ex_null_root)) ex_world
        = (w', Ok 0%Z)
    ∧ files w' = files ex_world ∧ errs w' = errs ex_world.
Proof.
  apply (X12_main_without_output_path false ex_tagged_md ex_deref_md ex_print ex_hash
           (ex_input_quiet (ex_analysis ex_ext [ex_site_malloc] ex_null_root))
           (ex_analysis ex_ext [ex_site_malloc] ex_null_root) ex_world
           [ex_def ex_null_root] [(ex_def ex_null_root, [ex_use])] 1).
  - reflexivity.
  - vm_compute; reflexivity.
  - discriminate.
  - vm_compute; reflexivity.
  - reflexivity.
Defined.

(** With an output path the same run stops at the rendering. *)
Lemma X13_main_rendering_failure_witness :
  ((∃ s, chains_toJSON false ex_print [(ex_def ex_null_root, [ex_use])] = Halt s)
   ↔ ∃ entry, entry ∈ [(ex_def ex_null_root, [ex_use])] ∧ Def_Val entry.1 = None
       ∧ ∀ Var sp, Def_Var entry.1 = Some Var → DIVariable_kind Var ≠ DILocalVariable sp)
  ∧ (∀ s, chains_toJSON false ex_print [(ex_def ex_null_root, [ex_use])] = Halt s →
       ∃ w', main false ex_tagged_md ex_deref_md ex_print ex_hash
               (ex_input (ex_analysis ex_ext [ex_site_malloc] ex_null_root)) ex_world
             = (w', Halt s)
         ∧ files w' = files ex_world ∧ errs w' = errs ex_world).
Proof.
  apply (X13_main_rendering_failure false ex_tagged_md ex_deref_md ex_print ex_hash
           (ex_input (ex_analysis ex_ext [ex_site_malloc] ex_null_root))
           (ex_analysis ex_ext [ex_site_malloc] ex_null_root) ex_world
           [ex_def ex_null_root] [(ex_def ex_null_root, [ex_use])] 1).
  - reflexivity.
  - vm_compute; reflexivity.
  - discriminate.
  - vm_compute; reflexivity.
  - discriminate.
Defined.

Example main_null_root_stops :
  (main false ex_tagged_md ex_deref_md ex_print ex_hash
     (ex_input (ex_analysis ex_ext [ex_site_malloc] ex_null_root)) ex_world).2
  = Halt Undefined.
Proof. vm_compute; reflexivity. Qed.

(** Two call sites defined at the same node: two definitions, two use sites
    counted, one pair stored. *)
Lemma X14_NumUses_counts_visits_witness :
  (N.of_nat 2
   = N.of_nat (sum_list
                 (instrumented_count ex_deref_md
                    (ex_analysis ex_ext [ex_site_malloc; ex_site_malloc_again] ex_chain)
                  <$> [ex_def ex_chain; ex_def ex_chain])) mod 2 ^ 32)%N
  ∧ (stored_pairs [(ex_def ex_chain, [ex_use])]
     ≤ sum_list
         (instrumented_count ex_deref_md
            (ex_analysis ex_ext [ex_site_malloc; ex_site_malloc_again] ex_chain)
          <$> [ex_def ex_chain; ex_def ex_chain]))%nat
  ∧ ((N.of_nat (sum_list
                  (instrumented_count ex_deref_md
                     (ex_analysis ex_ext [ex_site_malloc; ex_site_malloc_again] ex_chain)
                   <$> [ex_def ex_chain; ex_def ex_chain])) < 2 ^ 32)%N →
     2 = sum_list
           (instrumented_count ex_deref_md
              (ex_analysis ex_ext [ex_site_malloc; ex_site_malloc_again] ex_chain)
            <$> [ex_def ex_chain; ex_def ex_chain])
     ∧ (stored_pairs [(ex_def ex_chain, [ex_use])] ≤ 2)%nat).
Proof.
  apply (X14_NumUses_counts_visits false ex_deref_md ex_hash
           (ex_analysis ex_ext [ex_site_malloc; ex_site_malloc_again] ex_chain)
           [ex_def ex_chain; ex_def ex_chain] [(ex_def ex_chain, [ex_use])] 2).
  vm_compute; reflexivity.
Defined.

Example NumUses_counts_shared_node_twice :
  collect_defs false ex_tagged_md
    (ex_analysis ex_ext [ex_site_malloc; ex_site_malloc_again] ex_chain)
    [ex_site_malloc; ex_site_malloc_again] []
  = Ok [ex_def ex_chain; ex_def ex_chain]
  ∧ collect_uses false ex_deref_md ex_hash
      (ex_analysis ex_ext [ex_site_malloc; ex_site_malloc_again] ex_chain)
      [ex_def ex_chain; ex_def ex_chain]
    = Ok ([(ex_def ex_chain, [ex_use])], 2)
  ∧ stored_pairs [(ex_def ex_chain, [ex_use])] = 1.
Proof. repeat split; vm_compute; reflexivity. Qed.

Lemma X15_NumUses_is_the_store_size_witness :
  stored_pairs [(ex_def ex_chain, [ex_use]); (Def_new ex_chain 2 None, [ex_use])]
  = sum_list (instrumented_count ex_deref_md
                (ex_analysis ex_ext [ex_site_malloc] ex_chain)
              <$> [ex_def ex_chain; Def_new ex_chain 2 None])
  ∧ (N.of_nat 2
     = N.of_nat (stored_pairs [(ex_def ex_chain, [ex_use]);
                               (Def_new ex_chain 2 None, [ex_use])]) mod 2 ^ 32)%N
  ∧ ((N.of_nat (stored_pairs [(ex_def ex_chain, [ex_use]);
                              (Def_new ex_chain 2 None, [ex_use])]) < 2 ^ 32)%N →
     2 = stored_pairs [(ex_def ex_chain, [ex_use]);
                       (Def_new ex_chain 2 None, [ex_use])]).
Proof.
  apply (X15_NumUses_is_the_store_size false ex_deref_md ex_hash
           (ex_analysis ex_ext [ex_site_malloc] ex_chain)
           [ex_def ex_chain; Def_new ex_chain 2 None]).
  - vm_compute. repeat constructor; set_solver.
  - vm_compute; reflexivity.
Defined.

Lemma X16_chain_store_shape_witness :
  NoDup ((λ entry, Def_Node entry.1)
           <$> [(ex_def ex_chain, [ex_use]); (Def_new ex_chain 2 None, [ex_use])])
  ∧ ∀ k v, (k, v) ∈ [(ex_def ex_chain, [ex_use]); (Def_new ex_chain 2 None, [ex_use])] →
      k ∈ [ex_def ex_chain; Def_new ex_chain 2 None] ∧ v ≠ []
      ∧ NoDup (Use_Node <$> v).
Proof.
  apply (X16_chain_store_shape false ex_deref_md ex_hash
           (ex_analysis ex_ext [ex_site_malloc] ex_chain)
           [ex_def ex_chain; Def_new ex_chain 2 None] _ 2).
  vm_compute; reflexivity.
Defined.

(** The use of the load carries the variable recovered for its pointer
    operand, the value at address 11. *)
Lemma X17_stored_uses_recorded_witness : use_recorded ex_deref_md ex_analysis_vars ex_use_var.
Proof.
  apply (X17_stored_uses_recorded false ex_deref_md ex_hash ex_analysis_vars
           [ex_def ex_chain] [(ex_def ex_chain, [ex_use_var])] 1 (ex_def ex_chain)).
  - vm_compute; reflexivity.
  - vm_compute. left.
Defined.

(** The call whose result reaches no instrumented access has no entry. *)
Lemma X18_definition_without_uses_absent_witness :
  unordered_map_find (H := hash_Def ex_hash) (ex_def ex_unused)
    ([] : list (Def * list Use)) = None
  ↔ ∀ n, tc (edge ex_unused) (Def_Node (ex_def ex_unused)) n →
         isInstrumentedDeref ex_deref_md (node_value ex_unused n) = false.
Proof.
  apply (X18_definition_without_uses_absent false ex_deref_md ex_hash
           (ex_analysis ex_ext [ex_site_malloc] ex_unused) [ex_def ex_unused] [] 0).
  - vm_compute; reflexivity.
  - left.
Defined.

Lemma X19_uses_of_reached_definition_witness :
  ∃ u', u' ∈ uses_of ex_hash
                [(ex_def ex_chain, [ex_use]); (Def_new ex_chain 2 None, [ex_use])]
                (ex_def ex_chain)
        ∧ Use_Node u' = Use_Node ex_use.
Proof.
  apply (X19_uses_of_reached_definition false ex_deref_md ex_hash
           (ex_analysis ex_ext [ex_site_malloc] ex_chain)
           [ex_def ex_chain; Def_new ex_chain 2 None] _ 2
           (ex_def ex_chain) (Def_new ex_chain 2 None)).
  - vm_compute; reflexivity.
  - left.
  - apply tc_once. vm_compute. left.
  - vm_compute. left.
Defined.

Lemma X21_visited_set_ignores_edge_order_witness :
  visited_from ex_fan 1%positive = visited_from ex_fan_swapped 1%positive.
Proof.
  apply (X21_visited_set_ignores_edge_order ex_fan ex_fan_swapped 1%positive).
  intros n s. unfold out_edges, ex_fan, ex_fan_swapped.
  destruct (decide (n = 1%positive)) as [->|H1].
  { rewrite !lookup_insert_eq. simpl. set_solver. }
  rewrite !(lookup_insert_ne _ 1%positive) by done.
  destruct (decide (n = 2%positive)) as [->|H2].
  { by rewrite !lookup_insert_eq. }
  rewrite !(lookup_insert_ne _ 2%positive) by done. done.
Defined.

Lemma X22_first_failing_site_aborts_witness :
  collect_defs false ex_tagged_md (ex_analysis ex_ext_none [] ex_chain)
    ([ex_site_puts] ++ ex_site_plain :: [ex_site_malloc]) []
  = Halt (Abort (if isTaggedAlloc ex_tagged_md (Some (getCallSite ex_site_plain))
                 then "Tagged function must (re)allocate"
                 else "Tagged alloc must have fuzzalloc metadata")).
Proof.
  apply (X22_first_failing_site_aborts false ex_tagged_md
           (ex_analysis ex_ext_none [] ex_chain)
           [ex_site_puts] ex_site_plain ex_malloc [ex_site_malloc] [] []).
  - reflexivity.
  - vm_compute; reflexivity.
  - reflexivity.
  - vm_compute; reflexivity.
  - vm_compute; reflexivity.
Defined.
